(** * nomad-task-updates: tag resolution and version comparison

    A shallow embedding of [main.go].  Pure helpers ([isIncluded],
    [isExcluded], [filterTags], [getNewestVersion], the [less] closure of
    [sortInstances]) are Rocq functions; fallible code returns Go's
    [(value, error)] pairs with [nil] written [None]; the body of [run]
    threads the table buffer and standard output explicitly and ends in a
    normal return, an error return or a run-time panic.

    Packages the program imports (regexp, hashicorp/go-version, sort, the
    registry transport, the Nomad client, the reference normaliser) are
    interfaces here, with one class per package. *)

From Stdlib Require Import ZArith NArith List Bool Ascii String DecimalString.
From Stdlib Require Import Sorting.Sorted.
From Stdlib Require OrderedTypeEx.
From stdpp Require Import gmap strings list fin_maps sorting.

Local Open Scope string_scope.
Local Open Scope list_scope.

(** ** Go values *)

(** An [error] value.  [Wrapf p e] is [fmt.Errorf(p ++ ": %w", e)]. *)
Inductive Error : Type :=
| ErrMsg (msg : string)
| Wrapf (prefix : string) (cause : Error).

(** How a Go function body ends: normal return, error return, or a
    run-time panic (nil pointer dereference). *)
Inductive Outcome (A : Type) : Type :=
| Ok (a : A)
| Err (e : Error)
| Panic.
Arguments Ok {A} a.
Arguments Err {A} e.
Arguments Panic {A}.

(** ** Imported packages *)

(** Package [regexp]: compiled expressions and the method [MatchString]. *)
Class RegexpPkg := {
  Regexp : Type;
  MatchString : Regexp -> string -> bool
}.

(** Package [github.com/hashicorp/go-version]: [NewVersion] and the
    methods [Compare] (an [int]: negative, zero or positive) and [String]. *)
Class VersionPkg := {
  Version : Type;
  NewVersion : string -> Error + Version;
  Compare : Version -> Version -> Z;
  VString : Version -> string
}.

(** ** Data model *)

Section DataModel.
Context {regexp : RegexpPkg}.

(** [type TOMLRegexp struct { Regexp *regexp.Regexp }] *)
Record TOMLRegexp := { tr_Regexp : Regexp }.

(** [type WatchedImage struct] *)
Record WatchedImage := {
  Name : string;
  Include : list TOMLRegexp;
  Exclude : list TOMLRegexp
}.

(** [type Config struct] *)
Record Config := {
  Server : string;
  Namespaces : list string;
  Images : list WatchedImage
}.
End DataModel.

(** [reference.NamedTagged]: the two accessors the program calls. *)
Record NamedTagged := { ref_Name : string; ref_Tag : string }.

(** [type Instance struct] *)
Record Instance := {
  Namespace : string;
  Job : string;
  Group : string;
  Task : string;
  Image : NamedTagged
}.

(** ** Tag filter *)

Section Filter.
Context {regexp : RegexpPkg}.

(** The [for _, r := range rs { if r.Regexp.MatchString(s) { return true } }
    return false] loop shared by [isIncluded] and [isExcluded]. *)
Fixpoint matchesAny (s : string) (rs : list TOMLRegexp) : bool :=
  match rs with
  | [] => false
  | r :: rs' => if MatchString (tr_Regexp r) s then true else matchesAny s rs'
  end.

Definition isIncluded (s : string) (includes : list TOMLRegexp) : bool :=
  if (length includes =? 0)%nat then true else matchesAny s includes.

Definition isExcluded (s : string) (excludes : list TOMLRegexp) : bool :=
  if (length excludes =? 0)%nat then false else matchesAny s excludes.

(** One iteration of the loop of [filterTags]. *)
Definition filterTags_step (include exclude : list TOMLRegexp)
    (filtered : list string) (tag : string) : list string :=
  if negb (isIncluded tag include) then filtered
  else if isExcluded tag exclude then filtered
  else filtered ++ [tag].

Definition filterTags (tags : list string) (include exclude : list TOMLRegexp)
    : list string :=
  fold_left (filterTags_step include exclude) tags [].
End Filter.

(** ** Remaining packages and collaborators *)

(** Package [sort]: [sort.Slice] orders a slice in place by a [less]
    closure; the sort is not stable. *)
Class SortPkg := {
  sortSlice : forall A : Type, (A -> A -> bool) -> list A -> list A
}.
Arguments sortSlice {_ A} less l.

(** Package [reference]: [ParseNormalizedNamed] and the accessor [Name]
    of the reference it returns. *)
Class ReferencePkg := {
  Named : Type;
  ParseNormalizedNamed : string -> Error + Named;
  Named_Name : Named -> string
}.

(** What one run observes of the Go runtime: the order in which the
    goroutines of an [errgroup] reach their effect on the shared state,
    and the order in which [range] walks a map. *)
Class GoRuntime := {
  goSchedule : forall A : Type, list A -> list A;
  mapRange : forall V : Type, gmap string V -> list (string * V)
}.
Arguments goSchedule {_ A} tasks.
Arguments mapRange {_ V} m.

(** The collaborators of one run: the decoded configuration file, the
    Nomad client with the instances it enumerates per namespace
    ([getInstances], all scheduler I/O), and the registry's answer to the
    tags/list request of [getTags] (the names before [filterTags]). *)
Class Collaborators `{RegexpPkg} := {
  DecodeFile : string -> Error + Config;
  Client : Type;
  NewClient : string -> Error + Client;
  getInstances : Client -> string -> Error + list Instance;
  listTags : string -> Error + list string
}.

Section Program.
Context {regexp : RegexpPkg} {version : VersionPkg} {sort : SortPkg}
        {reference : ReferencePkg} {runtime : GoRuntime} {collab : Collaborators}.

(** *** go-version methods on pointers *)

(** [func (v *Version) GreaterThan(o *Version) bool] with both non-nil. *)
Definition GreaterThan (v o : Version) : bool := (0 <? Compare v o)%Z.

(** The same call through a receiver that may be [nil]: the method
    reads the receiver's fields, so a [nil] receiver panics. *)
Definition GreaterThan_recv (v : option Version) (o : Version) : Outcome bool :=
  match v with
  | None => Panic
  | Some v' => Ok (GreaterThan v' o)
  end.

(** *** Newest-version selector *)

(** The loop body of [getNewestVersion] for [i > 0]. *)
Definition newer (newestVersion v : Version) : Version :=
  if GreaterThan v newestVersion then v else newestVersion.

(** [getNewestVersion]: [nil] on an empty slice; otherwise the element at
    index 0 seeds the loop. *)
Definition getNewestVersion (versions : list Version) : option Version :=
  match versions with
  | [] => None
  | v0 :: rest => Some (fold_left newer rest v0)
  end.

(** *** Registry fetch and concurrent resolution *)

(** [getTags]: every failure of the request is the collaborator's
    error; on success the tag list goes through [filterTags]. *)
Definition getTags (watched : WatchedImage) : option (list string) * option Error :=
  match listTags (Name watched) with
  | inl err => (None, Some err)
  | inr tags => (Some (filterTags tags (Include watched) (Exclude watched)), None)
  end.

(** Shared state of [getImageTagMapping]: the map behind [mu] and the
    error slot of the group (written once). *)
Record groupState := {
  imageTags : gmap string (list string);
  g_err : option Error
}.

(** The effect of one goroutine. *)
Definition goTask (st : groupState) (watch : WatchedImage) : groupState :=
  match getTags watch with
  | (_, Some err) =>
      {| imageTags := imageTags st;
         g_err := match g_err st with None => Some err | first => first end |}
  | (tags, None) =>
      {| imageTags := <[Name watch := default [] tags]> (imageTags st);
         g_err := g_err st |}
  end.

(** [getImageTagMapping]: one goroutine per watched image; their effects
    land in the order of [goSchedule], and [g.Wait] returns the first
    error recorded, with which the map is dropped. *)
Definition getImageTagMapping (images : list WatchedImage)
    : option (gmap string (list string)) * option Error :=
  let st := fold_left goTask (goSchedule images) {| imageTags := ∅; g_err := None |} in
  match g_err st with
  | Some err => (None, Some err)
  | None => (Some (imageTags st), None)
  end.

(** The inner loop of [getImageVersionMapping] over one tag list. *)
Fixpoint parseTags (tags : list string) : Error + list Version :=
  match tags with
  | [] => inr []
  | tagStr :: rest =>
      match NewVersion tagStr with
      | inl err => inl err
      | inr ver =>
          match parseTags rest with
          | inl err => inl err
          | inr vers => inr (ver :: vers)
          end
      end
  end.

(** The outer loop, over the entries in the order [range] yields them. *)
Fixpoint parseEntries (entries : list (string * list string))
    (parsedImageTags : gmap string (list Version))
    : option (gmap string (list Version)) * option Error :=
  match entries with
  | [] => (Some parsedImageTags, None)
  | (imageName, tags) :: rest =>
      match parseTags tags with
      | inl err =>
          (None, Some (Wrapf ("couldn't parse image tag version for " ++ imageName) err))
      | inr vers => parseEntries rest (<[imageName := vers]> parsedImageTags)
      end
  end.

(** [getImageVersionMapping]: ranging over a nil map does nothing. *)
Definition getImageVersionMapping (images : list WatchedImage)
    : option (gmap string (list Version)) * option Error :=
  match getImageTagMapping images with
  | (_, Some err) => (None, Some err)
  | (tagMap, None) => parseEntries (mapRange (default ∅ tagMap)) ∅
  end.

(** *** Instances *)

(** Go's [>] on strings: byte-wise lexicographic. *)
Definition str_gt (a b : string) : bool :=
  match String.compare a b with Gt => true | _ => false end.

(** The [less] closure of [sortInstances], on the two elements that the
    indices select. *)
Definition less (a b : Instance) : bool :=
  if negb (String.eqb (Namespace a) (Namespace b)) then
    str_gt (Namespace a) (Namespace b)
  else if negb (String.eqb (Job a) (Job b)) then
    str_gt (Job a) (Job b)
  else if negb (String.eqb (Group a) (Group b)) then
    str_gt (Group a) (Group b)
  else if negb (String.eqb (Task a) (Task b)) then
    str_gt (Task a) (Task b)
  else false.

Definition sortInstances (instances : list Instance) : list Instance :=
  sortSlice less instances.

(** The loop of [getAllInstances]; [allInstances] is the slice built so
    far. *)
Fixpoint getAllInstances_loop (client : Client) (namespaces : list string)
    (allInstances : list Instance) : option (list Instance) * option Error :=
  match namespaces with
  | [] => (Some (sortInstances allInstances), None)
  | namespace :: rest =>
      match getInstances client namespace with
      | inl err => (None, Some err)
      | inr instances => getAllInstances_loop client rest (allInstances ++ instances)
      end
  end.

Definition getAllInstances (client : Client) (namespaces : list string)
    : option (list Instance) * option Error :=
  getAllInstances_loop client namespaces [].

(** *** Configuration *)

(** The loop of [parseConfigFile] that rewrites each image's [Name]. *)
Fixpoint normalizeImages (images : list WatchedImage) : Error + list WatchedImage :=
  match images with
  | [] => inr []
  | image :: rest =>
      match ParseNormalizedNamed (Name image) with
      | inl err => inl err
      | inr normName =>
          match normalizeImages rest with
          | inl err => inl err
          | inr rest' =>
              inr ({| Name := Named_Name normName;
                      Include := Include image;
                      Exclude := Exclude image |} :: rest')
          end
      end
  end.

(** [Config{}] *)
Definition emptyConfig : Config :=
  {| Server := ""; Namespaces := []; Images := [] |}.

Definition parseConfigFile (path : string) : Config * option Error :=
  match DecodeFile path with
  | inl err => (emptyConfig, Some err)
  | inr conf =>
      match normalizeImages (Images conf) with
      | inl err => (emptyConfig, Some err)
      | inr images =>
          ({| Server := Server conf; Namespaces := Namespaces conf; Images := images |},
           None)
      end
  end.

(** *** Matcher: the loop of [run] *)

(** [strconv.FormatBool] *)
Definition FormatBool (b : bool) : string := if b then "true" else "false".

(** The [[]string] handed to [table.Append]. *)
Definition reportRow (instance : Instance) (latest current : Version)
    (updateAvailable : bool) : list string :=
  [ Namespace instance; Job instance; Group instance; Task instance;
    ref_Name (Image instance); VString latest; VString current;
    FormatBool updateAvailable ].

(** The [for _, instance := range instances] loop.  [table] holds the
    rows appended so far; the result is the buffer when the loop ends
    and how it ended. *)
Fixpoint matchInstances (parsedImageTags : gmap string (list Version))
    (instances : list Instance) (table : list (list string))
    : list (list string) * Outcome unit :=
  match instances with
  | [] => (table, Ok tt)
  | instance :: rest =>
      match parsedImageTags !! ref_Name (Image instance) with
      | None => matchInstances parsedImageTags rest table
      | Some versions =>
          let latest := getNewestVersion versions in
          match NewVersion (ref_Tag (Image instance)) with
          | inl err => (table, Err err)
          | inr current =>
              match GreaterThan_recv latest current with
              | Ok updateAvailable =>
                  match latest with
                  | Some latest' =>
                      matchInstances parsedImageTags rest
                        (table ++ [reportRow instance latest' current updateAvailable])
                  | None => (table, Panic)
                  end
              | Err e => (table, Err e)
              | Panic => (table, Panic)
              end
          end
      end
  end.

(** What a run leaves behind: the rows [table.Render] wrote to standard
    output ([None] when it was never called) and how [run] ended. *)
Record RunResult := {
  stdout : option (list (list string));
  ending : Outcome unit
}.

Definition failed (err : Error) : RunResult :=
  {| stdout := None; ending := Err err |}.

Definition run : RunResult :=
  match parseConfigFile "./config.toml" with
  | (_, Some err) => failed err
  | (conf, None) =>
  match NewClient (Server conf) with
  | inl err => failed err
  | inr nomadClient =>
  match getImageVersionMapping (Images conf) with
  | (_, Some err) => failed err
  | (parsedImageTags, None) =>
  match getAllInstances nomadClient (Namespaces conf) with
  | (_, Some err) => failed err
  | (instances, None) =>
  match matchInstances (default ∅ parsedImageTags) (default [] instances) [] with
  | (table, Ok _) => {| stdout := Some table; ending := Ok tt |}
  | (_, stopped) => {| stdout := None; ending := stopped |}
  end end end end end.
End Program.

(** ** Contracts of the imported packages *)

(** [Compare] orders versions: swapping the arguments swaps the sign, and
    "not greater" is transitive.  Distinct versions may compare equal. *)
Class VersionOrder `{VersionPkg} : Prop := {
  Compare_flip : forall a b : Version, (Compare a b < 0 <-> 0 < Compare b a)%Z;
  Compare_trans : forall a b c : Version,
      (Compare a b <= 0 -> Compare b c <= 0 -> Compare a c <= 0)%Z
}.

(** What [sort.Slice] asks of its [less] closure. *)
Record StrictWeakOrder {A : Type} (lt : A -> A -> bool) : Prop := {
  swo_irrefl : forall a, lt a a = false;
  swo_trans : forall a b c, lt a b = true -> lt b c = true -> lt a c = true;
  swo_incomp : forall a b c, lt a b = false -> lt b c = false -> lt a c = false
}.

(** What [sort.Slice] gives back: the same elements, none placed before
    an element that is less than it. *)
Class SortContract `{SortPkg} : Prop := {
  sortSlice_perm : forall (A : Type) (lt : A -> A -> bool) (l : list A),
      StrictWeakOrder lt -> sortSlice lt l ≡ₚ l;
  sortSlice_sorted : forall (A : Type) (lt : A -> A -> bool) (l : list A),
      StrictWeakOrder lt ->
      StronglySorted (fun a b => lt b a = false) (sortSlice lt l)
}.

(** Every goroutine of the group runs once, and [range] visits every
    entry of a map once. *)
Class GoRuntimeLaws `{GoRuntime} : Prop := {
  goSchedule_perm : forall (A : Type) (tasks : list A), goSchedule tasks ≡ₚ tasks;
  mapRange_perm : forall (V : Type) (m : gmap string V), mapRange m ≡ₚ map_to_list m
}.

(** A normalised name is its own normal form. *)
Class CanonicalNames `{ReferencePkg} : Prop := {
  normalized_fixed : forall (s : string) (n : Named),
      ParseNormalizedNamed s = inr n ->
      exists n', ParseNormalizedNamed (Named_Name n) = inr n'
                 /\ Named_Name n' = Named_Name n
}.

(** ** String helpers for the concrete packages *)

(** [cut c s]: the part of [s] before the first [c], and the part after it
    when [c] occurs. *)
Fixpoint cut (c : ascii) (s : string) : string * option string :=
  match s with
  | EmptyString => (EmptyString, None)
  | String a s' =>
      if Ascii.eqb a c then (EmptyString, Some s')
      else let (before, after) := cut c s' in (String a before, after)
  end.

(** [split c s] with [fuel] at least the length of [s]. *)
Fixpoint split_fuel (fuel : nat) (c : ascii) (s : string) : list string :=
  match fuel with
  | O => [s]
  | S fuel' =>
      match cut c s with
      | (before, None) => [before]
      | (before, Some after) => before :: split_fuel fuel' c after
      end
  end.

Definition split (c : ascii) (s : string) : list string :=
  split_fuel (String.length s) c s.

Definition is_digit (a : ascii) : bool :=
  let n := N_of_ascii a in ((48 <=? n) && (n <=? 57))%N.

Fixpoint all_digits (s : string) : bool :=
  match s with
  | EmptyString => true
  | String a s' => is_digit a && all_digits s'
  end.

Fixpoint decimal_value (acc : N) (s : string) : N :=
  match s with
  | EmptyString => acc
  | String a s' => decimal_value (10 * acc + (N_of_ascii a - 48))%N s'
  end.

(** A non-empty run of decimal digits, as a number. *)
Definition numeric (s : string) : option N :=
  match s with
  | EmptyString => None
  | _ => if all_digits s then Some (decimal_value 0%N s) else None
  end.

Definition decimal (n : N) : string :=
  DecimalString.NilEmpty.string_of_uint (N.to_uint n).

(** [contains pat s]: [pat] occurs in [s]. *)
Fixpoint contains (pat s : string) : bool :=
  if String.prefix pat s then true
  else match s with
       | EmptyString => false
       | String _ s' => contains pat s'
       end.

(** Sign of a comparison, as the [int] that [Compare] returns. *)
Definition sign (c : comparison) : Z :=
  match c with Lt => (-1)%Z | Eq => 0%Z | Gt => 1%Z end.

(** Lexicographic combinators on comparisons. *)
Definition lexc (c1 c2 : comparison) : comparison :=
  match c1 with Eq => c2 | _ => c1 end.

Definition cmp_pair {A B : Type} (ca : A -> A -> comparison)
    (cb : B -> B -> comparison) (x y : A * B) : comparison :=
  lexc (ca (fst x) (fst y)) (cb (snd x) (snd y)).

Fixpoint cmp_list {A : Type} (ca : A -> A -> comparison) (xs ys : list A)
    : comparison :=
  match xs, ys with
  | [], [] => Eq
  | [], _ :: _ => Lt
  | _ :: _, [] => Gt
  | x :: xs', y :: ys' => lexc (ca x y) (cmp_list ca xs' ys')
  end.

(** ** Concrete packages, for the examples *)

(** Modelled from the spec: the [Version] value of section 3 and its
    parser, order and printer (major.minor.patch with optional pre-release
    and build metadata; numeric identifiers compare numerically,
    alphanumeric ones lexically, a pre-release is less than its release,
    build metadata takes no part in the order).  The program takes them
    from the imported package go-version, which is not part of this
    repository. *)
Module SemVer.
Inductive ident : Type :=
| Num (n : N)
| Alnum (s : string).

Record t : Type := {
  major : N;
  minor : N;
  patch : N;
  pre : list ident;
  build : string
}.

Definition parse_ident (s : string) : option ident :=
  match s with
  | EmptyString => None
  | _ => match numeric s with
         | Some n => Some (Num n)
         | None => Some (Alnum s)
         end
  end.

Fixpoint parse_idents (parts : list string) : option (list ident) :=
  match parts with
  | [] => Some []
  | p :: parts' =>
      match parse_ident p, parse_idents parts' with
      | Some i, Some ids => Some (i :: ids)
      | _, _ => None
      end
  end.

Definition parse (tag : string) : option t :=
  let s := match tag with
           | String "v"%char rest => rest
           | _ => tag
           end in
  let (s1, meta) := cut "+"%char s in
  let (core, prerelease) := cut "-"%char s1 in
  match List.map numeric (split "."%char core) with
  | [Some a; Some b; Some c] =>
      match match prerelease with
            | None => Some []
            | Some p => parse_idents (split "."%char p)
            end with
      | None => None
      | Some ids =>
          match meta with
          | Some EmptyString => None
          | _ => Some {| major := a; minor := b; patch := c; pre := ids;
                         build := default EmptyString meta |}
          end
      end
  | _ => None
  end.

Definition cmp_ident (x y : ident) : comparison :=
  match x, y with
  | Num n, Num m => N.compare n m
  | Num _, Alnum _ => Lt
  | Alnum _, Num _ => Gt
  | Alnum a, Alnum b => String.compare a b
  end.

Definition cmp_pre (p q : list ident) : comparison :=
  match p, q with
  | [], [] => Eq
  | [], _ :: _ => Gt
  | _ :: _, [] => Lt
  | _, _ => cmp_list cmp_ident p q
  end.

Definition key (v : t) : N * (N * (N * list ident)) :=
  (major v, (minor v, (patch v, pre v))).

Definition cmp (a b : t) : comparison :=
  cmp_pair N.compare (cmp_pair N.compare (cmp_pair N.compare cmp_pre))
    (key a) (key b).

Definition ident_string (i : ident) : string :=
  match i with
  | Num n => decimal n
  | Alnum s => s
  end.

Definition to_string (v : t) : string :=
  decimal (major v) ++ "." ++ decimal (minor v) ++ "." ++ decimal (patch v)
  ++ match pre v with
     | [] => ""
     | ids => "-" ++ String.concat "." (List.map ident_string ids)
     end
  ++ match build v with
     | EmptyString => ""
     | b => "+" ++ b
     end.

Definition pkg : VersionPkg := {|
  Version := t;
  NewVersion := fun tag =>
    match parse tag with
    | Some v => inr v
    | None => inl (ErrMsg ("Malformed version: " ++ tag))
    end;
  Compare := fun a b => sign (cmp a b);
  VString := to_string
|}.
End SemVer.

(** Patterns without metacharacters: such an expression matches the
    strings that contain it. *)
Definition literalRegexp : RegexpPkg := {|
  Regexp := string;
  MatchString := contains
|}.

(** Modelled from the spec: the canonical form of image names
    ([docker.io/library/name]).  A name without a registry host gets
    [docker.io], and a single-component name on [docker.io] gets
    [library/]; the normaliser is an imported package, not part of this
    repository. *)
Module DockerNames.
Definition has_host (domain : string) : bool :=
  contains "." domain || contains ":" domain || String.eqb domain "localhost".

Definition single (path : string) : bool :=
  match cut "/"%char path with
  | (_, None) => true
  | _ => false
  end.

Definition normalize (s : string) : string :=
  match cut "/"%char s with
  | (_, None) => "docker.io/library/" ++ s
  | (domain, Some rest) =>
      if has_host domain then
        if String.eqb domain "docker.io" && single rest
        then "docker.io/library/" ++ rest
        else s
      else "docker.io/" ++ s
  end.

Definition pkg : ReferencePkg := {|
  Named := string;
  ParseNormalizedNamed := fun s =>
    match s with
    | EmptyString => inl (ErrMsg "invalid reference format")
    | _ => inr (normalize s)
    end;
  Named_Name := fun n => n
|}.
End DockerNames.

(** A stable merge sort: one of the sorts [sort.Slice] may be. *)
Definition mergeSort : SortPkg := {|
  sortSlice := fun A lt l =>
    @merge_sort A (fun a b => lt b a = false)
      (fun a b => decide (lt b a = false)) l
|}.

(** Two runtimes: goroutines finishing in launch order, and in the
    opposite order. *)
Definition inOrder : GoRuntime := {|
  goSchedule := fun A tasks => tasks;
  mapRange := fun V m => map_to_list m
|}.

Definition lastFirst : GoRuntime := {|
  goSchedule := fun A tasks => rev tasks;
  mapRange := fun V m => map_to_list m
|}.

(** The collaborators of a run, from the decoded configuration, the
    registry's answers and the cluster's instances per namespace. *)
Definition world {regexp : RegexpPkg} (conf : Error + Config)
    (registry : string -> Error + list string)
    (cluster : string -> Error + list Instance) : Collaborators := {|
  DecodeFile := fun _ => conf;
  Client := unit;
  NewClient := fun _ => inr tt;
  getInstances := fun _ namespace => cluster namespace;
  listTags := registry
|}.

(** ** Example runs *)

Module Fleet.
Definition pat (s : string) : @TOMLRegexp literalRegexp :=
  @Build_TOMLRegexp literalRegexp s.

(** The decoded [config.toml]: two watched images, the first under its
    short name. *)
Definition configured : @Config literalRegexp := {|
  Server := "http://nomad.example:4646";
  Namespaces := ["default"; "batch"];
  Images :=
    [ {| Name := "app"; Include := []; Exclude := [pat "latest"; pat "rc"] |};
      {| Name := "ghcr.io/acme/db"; Include := [pat "2"]; Exclude := [] |} ]
|}.

(** The same watched images as resolution receives them. *)
Definition watched : list (@WatchedImage literalRegexp) :=
  [ {| Name := "docker.io/library/app"; Include := [];
       Exclude := [pat "latest"; pat "rc"] |};
    {| Name := "ghcr.io/acme/db"; Include := [pat "2"]; Exclude := [] |} ].

Definition registry (name : string) : Error + list string :=
  if String.eqb name "docker.io/library/app"
  then inr ["1.0.0"; "1.2.0"; "latest"; "1.1.0-rc1"]
  else if String.eqb name "ghcr.io/acme/db"
  then inr ["2.0.0"; "2.0.1"]
  else inl (ErrMsg "NAME_UNKNOWN").

(** A registry where every tag of the first image is excluded. *)
Definition registry_prerelease (name : string) : Error + list string :=
  if String.eqb name "docker.io/library/app"
  then inr ["latest"; "1.3.0-rc1"]
  else registry name.

(** A registry that refuses the second image. *)
Definition registry_denied (name : string) : Error + list string :=
  if String.eqb name "ghcr.io/acme/db"
  then inl (ErrMsg "UNAUTHORIZED")
  else registry name.

Definition web : Instance := {|
  Namespace := "default"; Job := "web"; Group := "frontend"; Task := "server";
  Image := {| ref_Name := "docker.io/library/app"; ref_Tag := "1.0.0" |}
|}.

Definition api : Instance := {|
  Namespace := "default"; Job := "api"; Group := "backend"; Task := "server";
  Image := {| ref_Name := "docker.io/library/app"; ref_Tag := "1.2.0" |}
|}.

Definition canary : Instance := {|
  Namespace := "default"; Job := "canary"; Group := "frontend"; Task := "server";
  Image := {| ref_Name := "docker.io/library/app"; ref_Tag := "latest" |}
|}.

(** An instance of an image that is not watched, on a tag that is not
    a version. *)
Definition cache : Instance := {|
  Namespace := "batch"; Job := "cache"; Group := "store"; Task := "redis";
  Image := {| ref_Name := "docker.io/library/redis"; ref_Tag := "latest" |}
|}.

Definition cluster (namespace : string) : Error + list Instance :=
  if String.eqb namespace "default" then inr [api; web]
  else if String.eqb namespace "batch" then inr [cache]
  else inr [].

Definition cluster_canary (namespace : string) : Error + list Instance :=
  if String.eqb namespace "default" then inr [api; canary; web]
  else cluster namespace.

Definition steady : @Collaborators literalRegexp :=
  world (inr configured) registry cluster.

Definition prerelease_only : @Collaborators literalRegexp :=
  world (inr configured) registry_prerelease cluster.

Definition denied : @Collaborators literalRegexp :=
  world (inr configured) registry_denied cluster.

Definition with_canary : @Collaborators literalRegexp :=
  world (inr configured) registry cluster_canary.

(** Versions, written as tags. *)
Definition v (tag : string) : SemVer.t :=
  default {| SemVer.major := 0; SemVer.minor := 0; SemVer.patch := 0;
             SemVer.pre := []; SemVer.build := "" |}
          (SemVer.parse tag).

(** The version mapping of the steady fleet. *)
Definition mapping : gmap string (list SemVer.t) :=
  <["docker.io/library/app" := [v "1.0.0"; v "1.2.0"]]>
    (<["ghcr.io/acme/db" := [v "2.0.0"; v "2.0.1"]]> ∅).


(** The configuration after [parseConfigFile]. *)
Definition normalized : @Config literalRegexp := {|
  Server := "http://nomad.example:4646";
  Namespaces := ["default"; "batch"];
  Images := watched
|}.

(** The rows of the two watched instances. *)
Definition web_row : list string :=
  ["default"; "web"; "frontend"; "server"; "docker.io/library/app";
   "1.2.0"; "1.0.0"; "true"].

Definition api_row : list string :=
  ["default"; "api"; "backend"; "server"; "docker.io/library/app";
   "1.2.0"; "1.2.0"; "false"].

(** The whole program in a fleet. *)
Definition run_in (fleet : @Collaborators literalRegexp) : RunResult :=
  @run literalRegexp SemVer.pkg mergeSort DockerNames.pkg inOrder fleet.
End Fleet.

(** ** Reference definitions

    What the contracts say, written independently of the code, to state
    the properties against. *)

Section Reference.
Context {regexp : RegexpPkg}.

(** The policy of the filter, per tag, in the words of its contract:
    inclusion is permissive when there is no include pattern, and an
    exclude match always drops the tag. *)
Definition passes (include exclude : list TOMLRegexp) (tag : string) : bool :=
  (match include with
   | [] => true
   | _ => existsb (fun r => MatchString (tr_Regexp r) tag) include
   end)
  && negb (existsb (fun r => MatchString (tr_Regexp r) tag) exclude).

Definition filter_spec (tags : list string) (include exclude : list TOMLRegexp)
    : list string :=
  List.filter (passes include exclude) tags.
End Reference.

(** What makes a three-way comparison an order: swapping the arguments
    swaps the answer, "less" is transitive, and arguments that compare
    equal compare alike with everything else. *)
Record CmpLaws {A : Type} (cmp : A -> A -> comparison) : Prop := {
  cmp_flip : forall a b, cmp b a = CompOpp (cmp a b);
  cmp_lt_trans : forall a b c, cmp a b = Lt -> cmp b c = Lt -> cmp a c = Lt;
  cmp_eq_l : forall a b c, cmp a b = Eq -> cmp a c = cmp b c
}.

(** The sort key of an instance, the same four columns of a report row,
    and the order on keys that "descending by namespace, then job, then
    group, then task" names. *)
Definition keyOf (i : Instance) : list string :=
  [Namespace i; Job i; Group i; Task i].

Definition rowKey (row : list string) : list string := take 4 row.

Definition cmp_key : list string -> list string -> comparison :=
  cmp_list String.compare.

(** [descending k1 k2]: a row with key [k1] may come before one with key
    [k2]. *)
Definition descending (k1 k2 : list string) : Prop := cmp_key k1 k2 <> Lt.

(** How resolution can fail: the fetch of a watched image returns an
    error, or a tag kept in the tag mapping does not parse as a version
    (the error then names the image). *)
Section Failures.
Context {regexp : RegexpPkg} {version : VersionPkg} {runtime : GoRuntime}
        {collab : Collaborators}.

Definition fetch_fails (images : list WatchedImage) (err : Error) : Prop :=
  exists w, w ∈ images /\ listTags (Name w) = inl err.

Definition parse_fails (images : list WatchedImage) (err : Error) : Prop :=
  exists tagMap imageName tags tag e,
    getImageTagMapping images = (Some tagMap, None)
    /\ tagMap !! imageName = Some tags
    /\ tag ∈ tags
    /\ NewVersion tag = inl e
    /\ err = Wrapf ("couldn't parse image tag version for " ++ imageName) e.

(** The same seen from the configuration: [w] is a watched image whose
    filtered tag list has a tag that does not parse.  With distinct image
    names every filtered list is an entry of the tag mapping. *)
Definition keeps_unparsable (w : WatchedImage) : Prop :=
  exists raw tag e,
    listTags (Name w) = inr raw
    /\ tag ∈ filterTags raw (Include w) (Exclude w)
    /\ NewVersion tag = inl e.
End Failures.

(** How the watched images of the configuration file and those handed
    to resolution relate: [normalized_from raw w] when [w] is [raw] under
    its canonical name, and [raw_or_canonical c raw] when [c] is [raw]
    written with either the same name or its canonical form. *)
Section Names.
Context {regexp : RegexpPkg} {reference : ReferencePkg}.

Definition normalized_from (raw w : WatchedImage) : Prop :=
  exists n, ParseNormalizedNamed (Name raw) = inr n
            /\ Name w = Named_Name n
            /\ Include w = Include raw
            /\ Exclude w = Exclude raw.

Definition raw_or_canonical (c raw : WatchedImage) : Prop :=
  Include c = Include raw
  /\ Exclude c = Exclude raw
  /\ (Name c = Name raw
      \/ exists n, ParseNormalizedNamed (Name raw) = inr n
                   /\ Name c = Named_Name n).
End Names.

(** ** Scheduler enumeration and process exit

    The body of [getInstances] over the calls it makes to the Nomad
    client, and [main]. *)

(** An [interface{}] value, as far as the program looks into it. *)
Inductive GoValue : Type :=
| StringValue (s : string)
| OtherValue.

(** [api.AllocationListStub], [api.Task] and [api.TaskGroup]: the fields
    the program reads.  [Name] of a task group is a [*string]. *)
Record AllocationListStub := {
  als_ID : string;
  als_JobID : string;
  als_Namespace : string
}.

Record NomadTask := {
  task_Name : string;
  task_Driver : string;
  task_Config : gmap string GoValue
}.

Record TaskGroup := {
  tg_Name : option string;
  tg_Tasks : list NomadTask
}.

(** What [reference.ParseDockerRef] returns: a reference that carries a
    tag, or one that does not (a digest only) and so is no
    [reference.NamedTagged]. *)
Inductive DockerRef : Type :=
| WithTag (image : NamedTagged)
| WithoutTag (name : string).

(** Package [api] of Nomad: the allocation calls of [getInstances], with
    the namespace of the query options, and [GetTaskGroup], which may
    return nil. *)
Class NomadAPI := {
  ApiClient : Type;
  Allocation : Type;
  AllocationsList : ApiClient -> string -> Error + list AllocationListStub;
  AllocationsInfo : ApiClient -> string -> string -> Error + Allocation;
  GetTaskGroup : Allocation -> option TaskGroup
}.

Class DockerRefPkg := {
  ParseDockerRef : string -> Error + DockerRef
}.

Module Scheduler.
Section Body.
Context {nomad : NomadAPI} {refs : DockerRefPkg}.

(** The [for _, task := range tg.Tasks] loop.  The type assertion on
    [task.Config["image"]] panics unless the value is a string, [*groupName]
    panics on a nil name, and the assertion to [NamedTagged] panics on a
    reference without a tag. *)
Fixpoint tasksLoop (als : AllocationListStub) (groupName : option string)
    (tasks : list NomadTask) (instances : list Instance)
    : Outcome (list Instance) :=
  match tasks with
  | [] => Ok instances
  | task :: rest =>
      if negb (String.eqb (task_Driver task) "docker") then
        tasksLoop als groupName rest instances
      else
        match task_Config task !! "image" with
        | Some (StringValue imageStr) =>
            if String.prefix "$" imageStr then
              tasksLoop als groupName rest instances
            else
              match ParseDockerRef imageStr with
              | inl _ => tasksLoop als groupName rest instances
              | inr image =>
                  match groupName, image with
                  | Some group, WithTag tagged =>
                      tasksLoop als groupName rest
                        (instances ++
                         [ {| Namespace := als_Namespace als;
                              Job := als_JobID als;
                              Group := group;
                              Task := task_Name task;
                              Image := tagged |} ])
                  | _, _ => Panic
                  end
              end
        | _ => Panic
        end
  end.

(** The [for _, als := range alss] loop; [tg.Name] panics on a nil task
    group. *)
Fixpoint allocsLoop (client : ApiClient) (namespace : string)
    (alss : list AllocationListStub) (instances : list Instance)
    : Outcome (list Instance) :=
  match alss with
  | [] => Ok instances
  | als :: rest =>
      match AllocationsInfo client (als_ID als) namespace with
      | inl err => Err err
      | inr alloc =>
          match GetTaskGroup alloc with
          | None => Panic
          | Some tg =>
              match tasksLoop als (tg_Name tg) (tg_Tasks tg) instances with
              | Ok instances' => allocsLoop client namespace rest instances'
              | stopped => stopped
              end
          end
      end
  end.

(** The namespace of the query options. *)
Definition queryNamespace (namespace : string) : string :=
  if String.eqb namespace "" then "*" else namespace.

Definition getInstances (client : ApiClient) (namespace : string)
    : Outcome (list Instance) :=
  match AllocationsList client (queryNamespace namespace) with
  | inl err => Err err
  | inr alss => allocsLoop client (queryNamespace namespace) alss []
  end.

(** The instance a task is reported as, if it is: a docker task whose
    image is a string without a leading dollar sign that parses to a
    tagged reference. *)
Definition reported (als : AllocationListStub) (group : string) (task : NomadTask)
    : option Instance :=
  if String.eqb (task_Driver task) "docker" then
    match task_Config task !! "image" with
    | Some (StringValue imageStr) =>
        if String.prefix "$" imageStr then None
        else match ParseDockerRef imageStr with
             | inr (WithTag tagged) =>
                 Some {| Namespace := als_Namespace als;
                         Job := als_JobID als;
                         Group := group;
                         Task := task_Name task;
                         Image := tagged |}
             | _ => None
             end
    | _ => None
    end
  else None.

(** A task the loop gets past without a panic, whatever it does with it:
    a docker task has a string image, and one that parses has a tag. *)
Definition safeTask (task : NomadTask) : Prop :=
  task_Driver task = "docker" ->
  exists imageStr,
    task_Config task !! "image" = Some (StringValue imageStr)
    /\ (String.prefix "$" imageStr = false ->
        forall ref, ParseDockerRef imageStr = inr ref ->
                    exists tagged, ref = WithTag tagged).

Definition safeGroup (tg : TaskGroup) : Prop :=
  is_Some (tg_Name tg) /\ Forall safeTask (tg_Tasks tg).
End Body.
End Scheduler.

(** How the process ends: [os.Exit] or falling off [main] with a status,
    or the runtime ending it on a panic. *)
Inductive ExitStatus : Type :=
| Exited (code : Z)
| Crashed.

Record Process := {
  printed : option (list (list string));
  reported_error : option Error;
  status : ExitStatus
}.

Section Main.
Context {regexp : RegexpPkg} {version : VersionPkg} {sort : SortPkg}
        {reference : ReferencePkg} {runtime : GoRuntime} {collab : Collaborators}.

(** [main]: the error of [run] goes to standard error with status 1. *)
Definition main : Process :=
  match ending run with
  | Ok _ => {| printed := stdout run; reported_error := None; status := Exited 0 |}
  | Err err =>
      {| printed := stdout run; reported_error := Some err; status := Exited 1 |}
  | Panic => {| printed := stdout run; reported_error := None; status := Crashed |}
  end.
End Main.

(** The instances the Matcher does not skip, and the row of one. *)
Section Rows.
Context {version : VersionPkg}.

Definition isWatched (m : gmap string (list Version)) (instance : Instance) : bool :=
  match m !! ref_Name (Image instance) with
  | Some _ => true
  | None => false
  end.

Definition rowFor (m : gmap string (list Version)) (instance : Instance)
    (row : list string) : Prop :=
  exists versions latest current,
    m !! ref_Name (Image instance) = Some versions
    /\ getNewestVersion versions = Some latest
    /\ NewVersion (ref_Tag (Image instance)) = inr current
    /\ row = reportRow instance latest current (GreaterThan latest current).
End Rows.

(** ** More example data *)

Module Cases.
(** Two watched entries for one image, with different filters. *)
Definition strict : @WatchedImage literalRegexp :=
  {| Name := "docker.io/library/app"; Include := [];
     Exclude := [Fleet.pat "latest"; Fleet.pat "rc"] |}.

Definition lenient : @WatchedImage literalRegexp :=
  {| Name := "docker.io/library/app"; Include := []; Exclude := [] |}.

(** A registry with a tag that passes the filter and is no version. *)
Definition registry_stable (name : string) : Error + list string :=
  if String.eqb name "docker.io/library/app"
  then inr ["1.0.0"; "stable"; "nightly"]
  else Fleet.registry name.

Definition stable : @Collaborators literalRegexp :=
  world (inr Fleet.configured) registry_stable Fleet.cluster.

(** A configuration with a name that does not normalise. *)
Definition misnamed : @Config literalRegexp := {|
  Server := "http://nomad.example:4646";
  Namespaces := ["default"];
  Images :=
    [ {| Name := "app"; Include := []; Exclude := [] |};
      {| Name := ""; Include := []; Exclude := [] |};
      {| Name := "ghcr.io/acme/db"; Include := []; Exclude := [] |} ]
|}.

Definition misconfigured : @Collaborators literalRegexp :=
  world (inr misnamed) Fleet.registry Fleet.cluster.

(** A cluster whose second namespace cannot be listed. *)
Definition cluster_forbidden (namespace : string) : Error + list Instance :=
  if String.eqb namespace "batch" then inl (ErrMsg "Permission denied")
  else Fleet.cluster namespace.

Definition forbidden : @Collaborators literalRegexp :=
  world (inr Fleet.configured) Fleet.registry cluster_forbidden.

(** References as [name:tag], for names without a port. *)
Definition dockerRefs : DockerRefPkg := {|
  ParseDockerRef := fun s =>
    if contains " " s then inl (ErrMsg "invalid reference format")
    else if contains "@" s then inr (WithoutTag s)
    else match cut ":"%char s with
         | (name, Some tag) =>
             inr (WithTag {| ref_Name := DockerNames.normalize name; ref_Tag := tag |})
         | (name, None) =>
             inr (WithTag {| ref_Name := DockerNames.normalize name;
                             ref_Tag := "latest" |})
         end
|}.

Definition image_config (image : string) : gmap string GoValue :=
  {[ "image" := StringValue image ]}.

(** One allocation of a group with a docker task, a task of another
    driver, a task whose image is interpolated and one whose image does
    not parse. *)
Definition frontend : TaskGroup := {|
  tg_Name := Some "frontend";
  tg_Tasks :=
    [ {| task_Name := "server"; task_Driver := "docker";
         task_Config := image_config "app:1.0.0" |};
      {| task_Name := "logger"; task_Driver := "exec"; task_Config := ∅ |};
      {| task_Name := "templated"; task_Driver := "docker";
         task_Config := image_config "${var.image}" |};
      {| task_Name := "broken"; task_Driver := "docker";
         task_Config := image_config "not an image" |} ]
|}.

Definition store : TaskGroup := {|
  tg_Name := Some "store";
  tg_Tasks :=
    [ {| task_Name := "redis"; task_Driver := "docker";
         task_Config := image_config "redis" |} ]
|}.

Definition web_alloc : AllocationListStub :=
  {| als_ID := "a1"; als_JobID := "web"; als_Namespace := "default" |}.

Definition cache_alloc : AllocationListStub :=
  {| als_ID := "a2"; als_JobID := "cache"; als_Namespace := "batch" |}.

Definition lost_alloc : AllocationListStub :=
  {| als_ID := "a3"; als_JobID := "gone"; als_Namespace := "batch" |}.

(** A group with a docker task that has no image. *)
Definition headless : TaskGroup := {|
  tg_Name := Some "store";
  tg_Tasks :=
    [ {| task_Name := "redis"; task_Driver := "docker";
         task_Config := image_config "redis" |};
      {| task_Name := "pause"; task_Driver := "docker"; task_Config := ∅ |} ]
|}.

Definition nomad : NomadAPI := {|
  ApiClient := unit;
  Allocation := TaskGroup;
  AllocationsList := fun _ namespace =>
    if String.eqb namespace "*" then inr [web_alloc; cache_alloc]
    else if String.eqb namespace "default" then inr [web_alloc]
    else if String.eqb namespace "batch" then inr [cache_alloc; lost_alloc]
    else inl (ErrMsg "Permission denied");
  AllocationsInfo := fun _ id _ =>
    if String.eqb id "a1" then inr frontend
    else if String.eqb id "a2" then inr store
    else inl (ErrMsg "alloc not found");
  GetTaskGroup := fun alloc => Some alloc
|}.

Definition nomad_headless : NomadAPI := {|
  ApiClient := unit;
  Allocation := TaskGroup;
  AllocationsList := fun _ _ => inr [web_alloc; cache_alloc];
  AllocationsInfo := fun _ id _ =>
    if String.eqb id "a1" then inr frontend else inr headless;
  GetTaskGroup := fun alloc => Some alloc
|}.

(** The tag mapping when the lenient entry is written last. *)
Definition lenient_tags : gmap string (list string) :=
  {[ "docker.io/library/app" := ["1.0.0"; "1.2.0"; "latest"; "1.1.0-rc1"] ]}.

(** The tag mapping of the steady fleet. *)
Definition steady_tags : gmap string (list string) :=
  <["docker.io/library/app" := ["1.0.0"; "1.2.0"]]>
    (<["ghcr.io/acme/db" := ["2.0.0"; "2.0.1"]]> ∅).
End Cases.

(** * Properties *)

(** ** Tag filter *)

Section FilterFacts.
Context {regexp : RegexpPkg}.

Lemma matchesAny_existsb s rs :
  matchesAny s rs = existsb (fun r => MatchString (tr_Regexp r) s) rs.
Proof.
  induction rs as [|r rs IH]; simpl; [reflexivity|].
  rewrite IH. destruct (MatchString (tr_Regexp r) s); reflexivity.
Qed.

Lemma step_passes include exclude filtered tag :
  filterTags_step include exclude filtered tag =
  if passes include exclude tag then filtered ++ [tag] else filtered.
Proof.
  unfold filterTags_step, passes, isIncluded, isExcluded.
  rewrite !matchesAny_existsb.
  destruct include as [|i include], exclude as [|e exclude]; simpl;
    repeat match goal with
           | |- context [MatchString ?r ?s] => destruct (MatchString r s); simpl
           | |- context [existsb ?f ?l] => destruct (existsb f l); simpl
           end; reflexivity.
Qed.

Lemma filterTags_loop include exclude tags filtered :
  fold_left (filterTags_step include exclude) tags filtered =
  filtered ++ filter_spec tags include exclude.
Proof.
  revert filtered. induction tags as [|tag tags IH]; intros filtered; simpl.
  - symmetry. apply app_nil_r.
  - rewrite IH, step_passes. unfold filter_spec. simpl.
    destruct (passes include exclude tag); [|reflexivity].
    rewrite <- app_assoc. reflexivity.
Qed.

Lemma filterTags_filter_spec tags include exclude :
  filterTags tags include exclude = filter_spec tags include exclude.
Proof. unfold filterTags. apply filterTags_loop. Qed.

Lemma passes_iff include exclude tag :
  passes include exclude tag = true <->
  (include = [] \/ exists r, In r include /\ MatchString (tr_Regexp r) tag = true)
  /\ ~ (exists r, In r exclude /\ MatchString (tr_Regexp r) tag = true).
Proof.
  unfold passes. rewrite andb_true_iff, negb_true_iff.
  rewrite <- not_true_iff_false, !existsb_exists.
  split; intros [Hi He]; split; try exact He.
  - destruct include as [|i include]; [left; reflexivity|].
    right. apply existsb_exists in Hi. exact Hi.
  - destruct include as [|i include]; [reflexivity|].
    apply existsb_exists. destruct Hi as [Hi|Hi]; [discriminate|exact Hi].
Qed.

Lemma filter_twice {A : Type} (f : A -> bool) (l : list A) :
  List.filter f (List.filter f l) = List.filter f l.
Proof.
  induction l as [|x l IH]; simpl; [reflexivity|].
  destruct (f x) eqn:E; simpl; rewrite ?E, IH; reflexivity.
Qed.

Lemma filter_sublist {A : Type} (f : A -> bool) (l : list A) :
  sublist (List.filter f l) l.
Proof.
  induction l as [|x l IH]; simpl; [constructor|].
  destruct (f x); constructor; exact IH.
Qed.

Lemma filter_count (f : string -> bool) (l : list string) (x : string) :
  f x = true ->
  count_occ string_dec (List.filter f l) x = count_occ string_dec l x.
Proof.
  intros Hx. induction l as [|y l IH]; simpl; [reflexivity|].
  destruct (string_dec y x) as [->|Hne].
  - rewrite Hx. simpl. destruct (string_dec x x); congruence.
  - destruct (f y); simpl; [|exact IH].
    destruct (string_dec y x); congruence.
Qed.

(** C3.  A tag is in the output of [filterTags] exactly when it is a
    source tag that passes inclusion (no include pattern, or one of them
    matches) and matches no exclude pattern; the output is the source
    list with the other tags removed, in the source order, and a tag
    that passes occurs as many times as in the source. *)
Theorem filterTags_policy (tags : list string) (include exclude : list TOMLRegexp) :
  filterTags tags include exclude = filter_spec tags include exclude
  /\ (forall tag,
        In tag (filterTags tags include exclude) <->
        In tag tags
        /\ (include = [] \/
            exists r, In r include /\ MatchString (tr_Regexp r) tag = true)
        /\ ~ (exists r, In r exclude /\ MatchString (tr_Regexp r) tag = true))
  /\ sublist (filterTags tags include exclude) tags
  /\ (forall tag,
        passes include exclude tag = true ->
        count_occ string_dec (filterTags tags include exclude) tag =
        count_occ string_dec tags tag).
Proof.
  rewrite filterTags_filter_spec. unfold filter_spec.
  split; [reflexivity|]. split; [|split].
  - intros tag. rewrite filter_In, passes_iff. reflexivity.
  - apply filter_sublist.
  - intros tag Htag. apply filter_count. exact Htag.
Qed.

(** C9.  Filtering the output of [filterTags] again with the same
    patterns changes nothing. *)
Theorem filterTags_idempotent (tags : list string) (include exclude : list TOMLRegexp) :
  filterTags (filterTags tags include exclude) include exclude =
  filterTags tags include exclude.
Proof.
  rewrite !filterTags_filter_spec. unfold filter_spec. apply filter_twice.
Qed.
End FilterFacts.

(** ** Three-way comparisons *)

Section CmpFacts.
Context {A : Type} (cmp : A -> A -> comparison) (L : CmpLaws cmp).

Lemma cmp_refl a : cmp a a = Eq.
Proof.
  pose proof (cmp_flip cmp L a a) as F. destruct (cmp a a); simpl in F; congruence.
Qed.

Lemma cmp_eq_sym a b : cmp a b = Eq -> cmp b a = Eq.
Proof. intros E. rewrite (cmp_flip cmp L a b), E. reflexivity. Qed.

Lemma cmp_eq_r a b c : cmp b c = Eq -> cmp a b = cmp a c.
Proof.
  intros E. apply cmp_eq_sym in E.
  rewrite (cmp_flip cmp L b a), (cmp_flip cmp L c a).
  f_equal. symmetry. apply (cmp_eq_l cmp L). exact E.
Qed.

Lemma cmp_gt_lt a b : cmp a b = Gt <-> cmp b a = Lt.
Proof.
  rewrite (cmp_flip cmp L a b). destruct (cmp a b); simpl; split; congruence.
Qed.

Lemma cmp_gt_trans a b c : cmp a b = Gt -> cmp b c = Gt -> cmp a c = Gt.
Proof.
  rewrite !cmp_gt_lt. intros Hab Hbc. exact (cmp_lt_trans cmp L c b a Hbc Hab).
Qed.

Lemma cmp_le_trans a b c : cmp a b <> Gt -> cmp b c <> Gt -> cmp a c <> Gt.
Proof.
  intros Hab Hbc.
  destruct (cmp a b) eqn:Eab; [| |congruence].
  - rewrite (cmp_eq_l cmp L a b c Eab). exact Hbc.
  - destruct (cmp b c) eqn:Ebc; [| |congruence].
    + rewrite <- (cmp_eq_r a b c Ebc), Eab. discriminate.
    + rewrite (cmp_lt_trans cmp L a b c Eab Ebc). discriminate.
Qed.

Lemma cmp_ge_trans a b c : cmp a b <> Lt -> cmp b c <> Lt -> cmp a c <> Lt.
Proof.
  intros Hab Hbc Hac. apply cmp_gt_lt in Hac.
  apply (cmp_le_trans c b a); [| |exact Hac]; rewrite cmp_gt_lt; assumption.
Qed.
End CmpFacts.

Lemma lexc_Eq c1 c2 : lexc c1 c2 = Eq <-> c1 = Eq /\ c2 = Eq.
Proof. destruct c1, c2; simpl; split; intros; intuition congruence. Qed.

Lemma lexc_Lt c1 c2 : lexc c1 c2 = Lt <-> c1 = Lt \/ (c1 = Eq /\ c2 = Lt).
Proof. destruct c1, c2; simpl; split; intros; intuition congruence. Qed.

Lemma lexc_CompOpp c1 c2 : lexc (CompOpp c1) (CompOpp c2) = CompOpp (lexc c1 c2).
Proof. destruct c1; reflexivity. Qed.

Lemma cmp_pair_laws {A B : Type} (ca : A -> A -> comparison)
    (cb : B -> B -> comparison) :
  CmpLaws ca -> CmpLaws cb -> CmpLaws (cmp_pair ca cb).
Proof.
  intros La Lb. unfold cmp_pair. split.
  - intros x y. rewrite (cmp_flip ca La), (cmp_flip cb Lb). apply lexc_CompOpp.
  - intros x y z. rewrite !lexc_Lt.
    intros [H1|[H1 H1']] [H2|[H2 H2']].
    + left. exact (cmp_lt_trans ca La _ _ _ H1 H2).
    + left. rewrite <- (cmp_eq_r ca La _ _ _ H2). exact H1.
    + left. rewrite (cmp_eq_l ca La _ _ _ H1). exact H2.
    + right. split.
      * rewrite (cmp_eq_l ca La _ _ _ H1). exact H2.
      * exact (cmp_lt_trans cb Lb _ _ _ H1' H2').
  - intros x y z. rewrite lexc_Eq. intros [H1 H2].
    rewrite (cmp_eq_l ca La _ _ _ H1), (cmp_eq_l cb Lb _ _ _ H2). reflexivity.
Qed.

Lemma cmp_list_laws {A : Type} (ca : A -> A -> comparison) :
  CmpLaws ca -> CmpLaws (cmp_list ca).
Proof.
  intros La. split.
  - intros xs. induction xs as [|x xs IH]; intros [|y ys]; simpl; try reflexivity.
    rewrite (cmp_flip ca La), IH. apply lexc_CompOpp.
  - intros xs. induction xs as [|x xs IH]; intros [|y ys] [|z zs]; simpl;
      try congruence.
    rewrite !lexc_Lt. intros [H1|[H1 H1']] [H2|[H2 H2']].
    + left. exact (cmp_lt_trans ca La _ _ _ H1 H2).
    + left. rewrite <- (cmp_eq_r ca La _ _ _ H2). exact H1.
    + left. rewrite (cmp_eq_l ca La _ _ _ H1). exact H2.
    + right. split.
      * rewrite (cmp_eq_l ca La _ _ _ H1). exact H2.
      * exact (IH _ _ H1' H2').
  - intros xs. induction xs as [|x xs IH]; intros [|y ys] [|z zs]; simpl;
      try congruence.
    rewrite lexc_Eq. intros [H1 H2].
    rewrite (cmp_eq_l ca La _ _ _ H1), (IH _ _ H2). reflexivity.
Qed.

Lemma N_compare_laws : CmpLaws N.compare.
Proof.
  split.
  - intros a b. apply N.compare_antisym.
  - intros a b c. rewrite !N.compare_lt_iff. apply N.lt_trans.
  - intros a b c E. apply N.compare_eq_iff in E. subst. reflexivity.
Qed.

Lemma String_compare_laws : CmpLaws String.compare.
Proof.
  split.
  - intros a b. apply String.compare_antisym.
  - intros a b c H1 H2.
    apply OrderedTypeEx.String_as_OT.cmp_lt.
    apply OrderedTypeEx.String_as_OT.cmp_lt in H1, H2.
    exact (OrderedTypeEx.String_as_OT.lt_trans _ _ _ H1 H2).
  - intros a b c E. apply String.compare_eq_iff in E. subst. reflexivity.
Qed.

Lemma cmp_key_laws : CmpLaws cmp_key.
Proof. apply cmp_list_laws, String_compare_laws. Qed.

(** ** The order of the concrete versions *)

Lemma cmp_ident_laws : CmpLaws SemVer.cmp_ident.
Proof.
  pose proof N_compare_laws as LN. pose proof String_compare_laws as LS.
  split.
  - intros [n|s] [m|t]; simpl; try reflexivity.
    + apply (cmp_flip _ LN).
    + apply (cmp_flip _ LS).
  - intros [n|s] [m|t] [k|u]; simpl; try congruence.
    + apply (cmp_lt_trans _ LN).
    + apply (cmp_lt_trans _ LS).
  - intros [n|s] [m|t] [k|u]; simpl; try congruence.
    + apply (cmp_eq_l _ LN).
    + apply (cmp_eq_l _ LS).
Qed.

Lemma cmp_pre_laws : CmpLaws SemVer.cmp_pre.
Proof.
  pose proof (cmp_list_laws _ cmp_ident_laws) as LL.
  split.
  - intros [|x p] [|y q]; try reflexivity.
    unfold SemVer.cmp_pre; cbv iota. apply (cmp_flip _ LL).
  - intros [|x p] [|y q] [|z r]; unfold SemVer.cmp_pre; cbv iota; try congruence.
    apply (cmp_lt_trans _ LL).
  - intros [|x p] [|y q] [|z r]; unfold SemVer.cmp_pre; cbv iota; try congruence.
    apply (cmp_eq_l _ LL).
Qed.

Lemma SemVer_cmp_laws : CmpLaws SemVer.cmp.
Proof.
  pose proof N_compare_laws as LN.
  pose proof (cmp_pair_laws _ _ LN (cmp_pair_laws _ _ LN
               (cmp_pair_laws _ _ LN cmp_pre_laws))) as LK.
  unfold SemVer.cmp. split.
  - intros a b. apply (cmp_flip _ LK).
  - intros a b c. apply (cmp_lt_trans _ LK).
  - intros a b c. apply (cmp_eq_l _ LK).
Qed.

Lemma sign_neg c : (sign c < 0)%Z <-> c = Lt.
Proof. destruct c; simpl; split; intros; try lia; congruence. Qed.

Lemma sign_pos c : (0 < sign c)%Z <-> c = Gt.
Proof. destruct c; simpl; split; intros; try lia; congruence. Qed.

Lemma sign_nonpos c : (sign c <= 0)%Z <-> c <> Gt.
Proof. destruct c; simpl; split; intros; try lia; congruence. Qed.

Lemma SemVer_order : @VersionOrder SemVer.pkg.
Proof.
  pose proof SemVer_cmp_laws as L.
  split; simpl.
  - intros a b. rewrite sign_neg, sign_pos. symmetry. apply (cmp_gt_lt _ L).
  - intros a b c. rewrite !sign_nonpos. apply (cmp_le_trans _ L).
Qed.

(** ** Newest-version selector *)

Section NewestFacts.
Context {version : VersionPkg} {order : VersionOrder}.

Lemma GreaterThan_false v o : GreaterThan v o = false <-> (Compare v o <= 0)%Z.
Proof. unfold GreaterThan. rewrite Z.ltb_ge. reflexivity. Qed.

Lemma GreaterThan_true v o : GreaterThan v o = true <-> (0 < Compare v o)%Z.
Proof. unfold GreaterThan. rewrite Z.ltb_lt. reflexivity. Qed.


Lemma Compare_le_lt a b c :
  (Compare a b <= 0 -> Compare b c < 0 -> Compare a c < 0)%Z.
Proof.
  intros Hab Hbc.
  destruct (Z_lt_le_dec (Compare a c) 0) as [|Hac]; [assumption|].
  exfalso. apply Compare_flip in Hbc.
  assert (Compare c a <= 0)%Z as Hca.
  { destruct (Compare_flip a c) as [F1 F2]. lia. }
  pose proof (Compare_trans c a b Hca Hab). lia.
Qed.





End NewestFacts.

(** ** Concurrent resolution *)

Section ResolveFacts.
Context {regexp : RegexpPkg} {version : VersionPkg} {runtime : GoRuntime}
        {fair : GoRuntimeLaws} {collab : Collaborators}.

Lemma getTags_cases w :
  (exists e, listTags (Name w) = inl e /\ getTags w = (None, Some e))
  \/ (exists raw, listTags (Name w) = inr raw
                  /\ getTags w = (Some (filterTags raw (Include w) (Exclude w)), None)).
Proof. unfold getTags. destruct (listTags (Name w)); eauto. Qed.

Lemma tasks_err_keep l : forall st e,
  g_err st = Some e -> g_err (fold_left goTask l st) = Some e.
Proof.
  induction l as [|w l IH]; intros st e Hst; simpl; [exact Hst|].
  apply IH. unfold goTask.
  destruct (getTags_cases w) as [(e' & _ & ->)|(raw & _ & ->)]; simpl.
  - rewrite Hst. reflexivity.
  - exact Hst.
Qed.

Lemma tasks_err_origin l : forall st e,
  g_err (fold_left goTask l st) = Some e ->
  g_err st = Some e \/ exists w, w ∈ l /\ listTags (Name w) = inl e.
Proof.
  induction l as [|w l IH]; intros st e Hfin; simpl in Hfin; [left; exact Hfin|].
  apply IH in Hfin as [Hst|(w' & Hw' & He)].
  - unfold goTask in Hst.
    destruct (getTags_cases w) as [(e' & Hl & Hg)|(raw & _ & Hg)];
      rewrite Hg in Hst; simpl in Hst.
    + destruct (g_err st) eqn:Est; [left; exact Hst|].
      right. exists w. split; [left|]. congruence.
    + left. exact Hst.
  - right. exists w'. split; [right; exact Hw'|exact He].
Qed.

Lemma tasks_err_raised l : forall st w e,
  w ∈ l -> listTags (Name w) = inl e -> is_Some (g_err (fold_left goTask l st)).
Proof.
  induction l as [|w0 l IH]; intros st w e Hin Hl.
  - apply elem_of_nil in Hin. contradiction.
  - simpl. apply elem_of_cons in Hin as [->|Hin]; [|eapply IH; eauto].
    unfold goTask at 2.
    destruct (getTags_cases w0) as [(e' & _ & ->)|(raw & Hr & _)]; [|congruence].
    destruct (g_err st) as [first|] eqn:Est.
    + exists first. apply tasks_err_keep. reflexivity.
    + exists e'. apply tasks_err_keep. reflexivity.
Qed.

Lemma tasks_entries l : forall st imageName tags,
  imageTags (fold_left goTask l st) !! imageName = Some tags ->
  imageTags st !! imageName = Some tags
  \/ exists w raw, w ∈ l /\ Name w = imageName /\ listTags (Name w) = inr raw
                   /\ tags = filterTags raw (Include w) (Exclude w).
Proof.
  induction l as [|w l IH]; intros st imageName tags Hfin; simpl in Hfin;
    [left; exact Hfin|].
  apply IH in Hfin as [Hst|(w' & raw & Hw' & Hn & Hl & Ht)].
  - unfold goTask in Hst.
    destruct (getTags_cases w) as [(e' & _ & Hg)|(raw & Hl & Hg)];
      rewrite Hg in Hst; simpl in Hst; [left; exact Hst|].
    destruct (decide (Name w = imageName)) as [Heq|Hne].
    + rewrite Heq, lookup_insert_eq in Hst. right. exists w, raw.
      split; [left|]. split; [exact Heq|]. split; [exact Hl|congruence].
    + rewrite lookup_insert_ne in Hst by exact Hne. left. exact Hst.
  - right. exists w', raw. split; [right; exact Hw'|auto].
Qed.

Lemma tasks_keys_keep l : forall st imageName,
  is_Some (imageTags st !! imageName) ->
  is_Some (imageTags (fold_left goTask l st) !! imageName).
Proof.
  induction l as [|w l IH]; intros st imageName Hst; simpl; [exact Hst|].
  apply IH. unfold goTask.
  destruct (getTags_cases w) as [(e' & _ & ->)|(raw & _ & ->)]; simpl;
    [exact Hst|].
  destruct (decide (Name w = imageName)) as [Heq|Hne].
  - rewrite Heq, lookup_insert_eq. eauto.
  - rewrite lookup_insert_ne by exact Hne. exact Hst.
Qed.

Lemma tasks_keys l : forall st w,
  w ∈ l -> g_err (fold_left goTask l st) = None ->
  is_Some (imageTags (fold_left goTask l st) !! Name w).
Proof.
  induction l as [|w0 l IH]; intros st w Hin Hnone.
  - apply elem_of_nil in Hin. contradiction.
  - simpl in *. apply elem_of_cons in Hin as [->|Hin]; [|apply IH; assumption].
    apply tasks_keys_keep. unfold goTask.
    destruct (getTags_cases w0) as [(e' & Hl & Hg)|(raw & _ & ->)]; simpl.
    + exfalso.
      destruct (tasks_err_raised (w0 :: l) st w0 e') as [e Hsome];
        [left|exact Hl|]. simpl in Hsome. congruence.
    + rewrite lookup_insert_eq. eauto.
Qed.

(** [getImageTagMapping] returns the error of a failed fetch and no
    map, or a map and no error. *)
Lemma getImageTagMapping_cases images :
  (exists err, getImageTagMapping images = (None, Some err)
               /\ fetch_fails images err)
  \/ (exists tagMap, getImageTagMapping images = (Some tagMap, None)
                     /\ forall err, ~ fetch_fails images err).
Proof.
  unfold getImageTagMapping.
  destruct (g_err _) as [err|] eqn:E.
  - left. exists err. split; [reflexivity|].
    apply tasks_err_origin in E as [E|(w & Hw & Hl)]; [discriminate|].
    exists w. split; [|exact Hl]. rewrite <- (goSchedule_perm _ images). exact Hw.
  - right. eexists. split; [reflexivity|].
    intros err (w & Hw & Hl).
    rewrite <- (goSchedule_perm _ images) in Hw.
    destruct (tasks_err_raised _ {| imageTags := ∅; g_err := None |} w err Hw Hl)
      as [e He]. congruence.
Qed.

Lemma getImageTagMapping_entries images tagMap :
  getImageTagMapping images = (Some tagMap, None) ->
  (forall imageName tags,
      tagMap !! imageName = Some tags ->
      exists w raw, w ∈ images /\ Name w = imageName
                    /\ listTags (Name w) = inr raw
                    /\ tags = filterTags raw (Include w) (Exclude w))
  /\ (forall w, w ∈ images -> is_Some (tagMap !! Name w)).
Proof.
  unfold getImageTagMapping.
  destruct (g_err _) eqn:E; [discriminate|]. intros [= <-]. split.
  - intros imageName tags Hl.
    apply tasks_entries in Hl as [Hl|(w & raw & Hw & Hrest)].
    + simpl in Hl. rewrite lookup_empty in Hl. discriminate.
    + exists w, raw. split; [|exact Hrest].
      rewrite <- (goSchedule_perm _ images). exact Hw.
  - intros w Hw. apply tasks_keys; [|exact E].
    rewrite (goSchedule_perm _ images). exact Hw.
Qed.
End ResolveFacts.

Section VersionMappingFacts.
Context {regexp : RegexpPkg} {version : VersionPkg} {runtime : GoRuntime}
        {fair : GoRuntimeLaws} {collab : Collaborators}.

Lemma parseTags_inl tags e :
  parseTags tags = inl e -> exists tag, tag ∈ tags /\ NewVersion tag = inl e.
Proof.
  induction tags as [|tagStr tags IH]; simpl; [discriminate|].
  destruct (NewVersion tagStr) as [err|ver] eqn:E.
  - intros [= ->]. exists tagStr. split; [left|exact E].
  - destruct (parseTags tags) as [err|vers]; [|discriminate].
    intros [= ->]. destruct IH as (tag & Hin & Htag); [reflexivity|].
    exists tag. split; [right; exact Hin|exact Htag].
Qed.

Lemma parseTags_fails tags tag e :
  tag ∈ tags -> NewVersion tag = inl e -> exists e', parseTags tags = inl e'.
Proof.
  induction tags as [|tagStr tags IH]; intros Hin He.
  - apply elem_of_nil in Hin. contradiction.
  - simpl. destruct (NewVersion tagStr) as [err|ver] eqn:E; [eauto|].
    apply elem_of_cons in Hin as [->|Hin]; [congruence|].
    destruct (IH Hin He) as [e' ->]. eauto.
Qed.

Lemma parseTags_inr tags vers :
  parseTags tags = inr vers ->
  Forall2 (fun tag ver => NewVersion tag = inr ver) tags vers.
Proof.
  revert vers. induction tags as [|tagStr tags IH]; simpl; intros vers.
  - intros [= <-]. constructor.
  - destruct (NewVersion tagStr) as [err|ver] eqn:E; [discriminate|].
    destruct (parseTags tags) as [err|vers']; [discriminate|].
    intros [= <-]. constructor; [exact E|]. apply IH. reflexivity.
Qed.

(** The outer loop stops at the first entry with a tag that does not
    parse, and returns no map then. *)
Lemma parseEntries_fails entries : forall parsed imageName tags e,
  (imageName, tags) ∈ entries -> parseTags tags = inl e ->
  exists imageName' tags' e',
    (imageName', tags') ∈ entries
    /\ parseTags tags' = inl e'
    /\ parseEntries entries parsed =
       (None, Some (Wrapf ("couldn't parse image tag version for " ++ imageName') e')).
Proof.
  induction entries as [|[n t] entries IH]; intros parsed imageName tags e Hin He.
  - apply elem_of_nil in Hin. contradiction.
  - simpl. destruct (parseTags t) as [err|vers] eqn:E.
    + exists n, t, err. split; [left|]. split; [exact E|reflexivity].
    + apply elem_of_cons in Hin as [[= -> ->]|Hin]; [congruence|].
      destruct (IH (<[n:=vers]> parsed) _ _ _ Hin He) as (n' & t' & e' & Ha & Hb & Hc).
      exists n', t', e'. split; [right; exact Ha|]. split; [exact Hb|exact Hc].
Qed.

Lemma parseEntries_no_error entries : forall parsed m oerr,
  parseEntries entries parsed = (Some m, oerr) -> oerr = None.
Proof.
  induction entries as [|[n t] entries IH]; intros parsed m oerr; simpl.
  - intros [= _ <-]. reflexivity.
  - destruct (parseTags t); [discriminate|]. apply IH.
Qed.

Lemma parseEntries_ok entries : forall parsed m,
  parseEntries entries parsed = (Some m, None) ->
  (forall imageName tags, (imageName, tags) ∈ entries ->
                          exists vers, parseTags tags = inr vers)
  /\ (forall imageName,
         is_Some (m !! imageName) <->
         is_Some (parsed !! imageName) \/ exists tags, (imageName, tags) ∈ entries).
Proof.
  induction entries as [|[n t] entries IH]; intros parsed m; simpl.
  - intros [= <-]. split.
    + intros ? ? Hin. apply elem_of_nil in Hin. contradiction.
    + intros k. split; [auto|]. intros [Hk|(tags & Hin)]; [exact Hk|].
      apply elem_of_nil in Hin. contradiction.
  - destruct (parseTags t) as [err|vers] eqn:E; [discriminate|].
    intros Hm. apply IH in Hm as [Hall Hkeys]. split.
    + intros k tags Hin. apply elem_of_cons in Hin as [[= -> ->]|Hin]; eauto.
    + intros k. rewrite Hkeys. split.
      * intros [Hk|(tags & Hin)].
        -- destruct (decide (n = k)) as [->|Hne].
           ++ right. exists t. left.
           ++ rewrite lookup_insert_ne in Hk by exact Hne. left. exact Hk.
        -- right. exists tags. right. exact Hin.
      * intros [Hk|(tags & Hin)].
        -- left. destruct (decide (n = k)) as [->|Hne].
           ++ rewrite lookup_insert_eq. eauto.
           ++ rewrite lookup_insert_ne by exact Hne. exact Hk.
        -- apply elem_of_cons in Hin as [[= -> ->]|Hin].
           ++ left. rewrite lookup_insert_eq. eauto.
           ++ right. eauto.
Qed.

Lemma elem_of_mapRange {V : Type} (m : gmap string V) k v :
  (k, v) ∈ mapRange m <-> m !! k = Some v.
Proof. rewrite (mapRange_perm V m). apply elem_of_map_to_list. Qed.

Lemma same_name_same_image (images : list WatchedImage) w w' :
  NoDup (Name <$> images) -> w ∈ images -> w' ∈ images -> Name w = Name w' -> w = w'.
Proof.
  induction images as [|x images IH]; intros Hnd Hw Hw' Hname.
  - apply elem_of_nil in Hw. contradiction.
  - rewrite fmap_cons in Hnd. apply NoDup_cons in Hnd as [Hx Hnd].
    apply elem_of_cons in Hw as [->|Hw]; apply elem_of_cons in Hw' as [->|Hw'].
    + reflexivity.
    + exfalso. apply Hx. rewrite Hname. apply list_elem_of_fmap_2. exact Hw'.
    + exfalso. apply Hx. rewrite <- Hname. apply list_elem_of_fmap_2. exact Hw.
    + apply IH; assumption.
Qed.

(** With distinct names, a watched image whose filtered tags do not all
    parse shows up as a parse failure of the tag mapping. *)
Lemma distinct_names_parse_fails images tagMap w :
  getImageTagMapping images = (Some tagMap, None) ->
  NoDup (Name <$> images) -> w ∈ images -> keeps_unparsable w ->
  exists err, parse_fails images err.
Proof.
  intros Hres Hnd Hw (raw & tag & e & Hraw & Htag & He).
  destruct (getImageTagMapping_entries images tagMap Hres) as [Hent Hkeys].
  destruct (Hkeys w Hw) as [tags Htags].
  destruct (Hent _ _ Htags) as (w' & raw' & Hw' & Hname & Hraw' & ->).
  assert (w' = w) as -> by (eapply same_name_same_image; eauto).
  rewrite Hraw in Hraw'. injection Hraw' as <-.
  eexists. exists tagMap, (Name w), (filterTags raw (Include w) (Exclude w)), tag, e.
  repeat (split; [eassumption|]). reflexivity.
Qed.

(** C2.  If the fetch of a watched image fails, or a tag kept in the
    tag mapping does not parse (with distinct image names: a tag kept by
    the filter of a watched image), [getImageVersionMapping] returns an
    error and the nil map; the error is that of a fetch that failed, or
    of a tag that did not parse, wrapped with the image name. *)
Theorem resolve_first_error_wins (images : list WatchedImage) :
  (exists err, fetch_fails images err \/ parse_fails images err)
  \/ (NoDup (Name <$> images) /\ exists w, w ∈ images /\ keeps_unparsable w) ->
  exists err,
    getImageVersionMapping images = (None, Some err)
    /\ (fetch_fails images err \/ parse_fails images err).
Proof.
  intros Hfail. unfold getImageVersionMapping.
  destruct (getImageTagMapping_cases images)
    as [(err & Hres & Hf)|(tagMap & Hres & Hnofetch)].
  - rewrite Hres. exists err. split; [reflexivity|left; exact Hf].
  - assert (exists err, parse_fails images err) as [err Hp].
    { destruct Hfail as [(err & [Hf|Hp])|(Hnd & w & Hw & Hkeep)].
      - destruct (Hnofetch err Hf).
      - exists err. exact Hp.
      - eapply distinct_names_parse_fails; eauto. }
    destruct Hp as (tagMap' & imageName & tags & tag & e & Hres' & Hlook & Hin & Hnew & _).
    rewrite Hres in Hres'. injection Hres' as <-.
    rewrite Hres. simpl.
    destruct (parseTags_fails tags tag e Hin Hnew) as [e0 He0].
    apply elem_of_mapRange in Hlook.
    destruct (parseEntries_fails _ ∅ _ _ _ Hlook He0) as (n' & t' & e' & Ha & Hb & Hc).
    eexists. split; [exact Hc|]. right.
    apply parseTags_inl in Hb as (tag' & Hin' & Hnew').
    apply elem_of_mapRange in Ha.
    exists tagMap, n', t', tag', e'. auto.
Qed.

(** The other way round: a map comes back only with no error, when no
    fetch failed and every tag of the tag mapping parsed, and then it
    has an entry for every watched image and for nothing else. *)
Lemma resolve_complete images m oerr :
  getImageVersionMapping images = (Some m, oerr) ->
  oerr = None
  /\ (forall err, ~ fetch_fails images err)
  /\ (forall err, ~ parse_fails images err)
  /\ (forall imageName,
         is_Some (m !! imageName) <-> exists w, w ∈ images /\ Name w = imageName).
Proof.
  unfold getImageVersionMapping.
  destruct (getImageTagMapping_cases images)
    as [(err & Hres & Hf)|(tagMap & Hres & Hnofetch)];
    rewrite Hres; [discriminate|]. simpl. intros Hm.
  pose proof (parseEntries_no_error _ _ _ _ Hm) as ->.
  split; [reflexivity|]. split; [exact Hnofetch|].
  destruct (getImageTagMapping_entries images tagMap Hres) as [Hent Hkeys].
  pose proof (parseEntries_ok _ _ _ Hm) as [Hall Hdom]. split.
  - intros err (tagMap' & n & tags & tag & e & Hres' & Hlook & Hin & Hnew & _).
    rewrite Hres in Hres'. injection Hres' as <-.
    apply elem_of_mapRange in Hlook. destruct (Hall _ _ Hlook) as [vers Hv].
    destruct (parseTags_fails tags tag e Hin Hnew). congruence.
  - intros k. rewrite Hdom, lookup_empty. split.
    + intros [[? ?]|(tags & Hin)]; [discriminate|].
      apply elem_of_mapRange in Hin.
      destruct (Hent _ _ Hin) as (w & raw & Hw & Hn & _). eauto.
    + intros (w & Hw & <-). right.
      destruct (Hkeys w Hw) as [tags Ht]. exists tags.
      apply elem_of_mapRange. exact Ht.
Qed.
End VersionMappingFacts.

(** ** Matcher *)

Section MatcherFacts.
Context {version : VersionPkg}.

(** An instance without an entry in the mapping leaves the loop state
    as it was. *)
Lemma matchInstances_skip m instance rest table :
  m !! ref_Name (Image instance) = None ->
  matchInstances m (instance :: rest) table = matchInstances m rest table.
Proof. intros Hnone. simpl. rewrite Hnone. reflexivity. Qed.

(** The loop over a concatenation: the second part runs on the buffer
    the first part leaves, unless the first part stopped the loop. *)
Lemma matchInstances_app m before after : forall table,
  matchInstances m (before ++ after) table =
  match matchInstances m before table with
  | (table', Ok _) => matchInstances m after table'
  | stopped => stopped
  end.
Proof.
  induction before as [|instance before IH]; intros table; simpl; [reflexivity|].
  destruct (m !! ref_Name (Image instance)) as [versions|]; [|apply IH].
  destruct (NewVersion (ref_Tag (Image instance))) as [err|current]; [reflexivity|].
  destruct (getNewestVersion versions) as [latest|]; simpl; [apply IH|reflexivity].
Qed.

(** C6.  An instance whose image name has no entry in the version
    mapping adds no row and raises no error, and the loop over the
    other instances goes as if the instance were not there. *)
Theorem unwatched_instance_skipped (m : gmap string (list Version))
    (before after : list Instance) (instance : Instance)
    (table : list (list string)) :
  m !! ref_Name (Image instance) = None ->
  matchInstances m [instance] table = (table, Ok tt)
  /\ matchInstances m (before ++ instance :: after) table =
     matchInstances m (before ++ after) table.
Proof.
  intros Hnone. split.
  - rewrite matchInstances_skip by exact Hnone. reflexivity.
  - rewrite !matchInstances_app.
    destruct (matchInstances m before table) as [table' [[]| |]]; try reflexivity.
    apply matchInstances_skip. exact Hnone.
Qed.

(** Where the rows of the buffer come from. *)
Lemma matchInstances_rows m instances : forall table0 table ending row,
  matchInstances m instances table0 = (table, ending) ->
  row ∈ table ->
  row ∈ table0
  \/ exists instance versions latest current,
       instance ∈ instances
       /\ m !! ref_Name (Image instance) = Some versions
       /\ getNewestVersion versions = Some latest
       /\ NewVersion (ref_Tag (Image instance)) = inr current
       /\ row = reportRow instance latest current (GreaterThan latest current).
Proof.
  induction instances as [|instance rest IH]; intros table0 table ending row; simpl.
  - intros [= <- _] Hrow. left. exact Hrow.
  - destruct (m !! ref_Name (Image instance)) as [versions|] eqn:Hm.
    + destruct (NewVersion (ref_Tag (Image instance))) as [err|current] eqn:Hc.
      { intros [= <- _] Hrow. left. exact Hrow. }
      destruct (getNewestVersion versions) as [latest|] eqn:Hl; simpl.
      * intros Hrun Hrow.
        destruct (IH _ _ _ _ Hrun Hrow) as [Hin|(i & vs & l & c & Hi & Hrest)].
        -- apply elem_of_app in Hin as [Hin|Hin]; [left; exact Hin|].
           apply list_elem_of_singleton in Hin. right.
           exists instance, versions, latest, current.
           split; [left|]. auto.
        -- right. exists i, vs, l, c. split; [right; exact Hi|exact Hrest].
      * intros [= <- _] Hrow. left. exact Hrow.
    + intros Hrun Hrow.
      destruct (IH _ _ _ _ Hrun Hrow) as [Hin|(i & vs & l & c & Hi & Hrest)];
        [left; exact Hin|].
      right. exists i, vs, l, c. split; [right; exact Hi|exact Hrest].
Qed.

(** C5.  Every row the Matcher appends belongs to a watched instance,
    and its last column is true exactly when the newest version of the
    mapping compares greater than the instance's parsed tag; versions
    that compare equal give false. *)
Theorem updateAvailable_strictly_greater (m : gmap string (list Version))
    (instances : list Instance) (table : list (list string))
    (stopped : Outcome unit) (row : list string) :
  matchInstances m instances [] = (table, stopped) ->
  row ∈ table ->
  exists instance versions latest current updateAvailable,
    instance ∈ instances
    /\ m !! ref_Name (Image instance) = Some versions
    /\ getNewestVersion versions = Some latest
    /\ NewVersion (ref_Tag (Image instance)) = inr current
    /\ row = reportRow instance latest current updateAvailable
    /\ (updateAvailable = true <-> (Compare latest current > 0)%Z)
    /\ ((Compare latest current = 0)%Z -> updateAvailable = false).
Proof.
  intros Hrun Hrow.
  destruct (matchInstances_rows _ _ _ _ _ _ Hrun Hrow)
    as [Hin|(i & vs & l & c & Hi & Hm & Hl & Hc & ->)].
  { apply elem_of_nil in Hin. contradiction. }
  exists i, vs, l, c, (GreaterThan l c). repeat (split; [assumption|]).
  split; [reflexivity|]. unfold GreaterThan. split.
  - rewrite Z.ltb_lt. lia.
  - intros ->. reflexivity.
Qed.

(** The loop stops with the parse error at a watched instance whose
    tag does not parse, keeping the buffer as it was. *)
Lemma matchInstances_unparsable m instance rest table err :
  is_Some (m !! ref_Name (Image instance)) ->
  NewVersion (ref_Tag (Image instance)) = inl err ->
  matchInstances m (instance :: rest) table = (table, Err err).
Proof. intros [versions Hm] Herr. simpl. rewrite Hm, Herr. reflexivity. Qed.

(** The loop panics at a watched instance with a tag that parses and an
    empty version list. *)
Lemma matchInstances_no_versions m instance rest table current :
  m !! ref_Name (Image instance) = Some [] ->
  NewVersion (ref_Tag (Image instance)) = inr current ->
  matchInstances m (instance :: rest) table = (table, Panic).
Proof. intros Hm Hc. simpl. rewrite Hm, Hc. reflexivity. Qed.
End MatcherFacts.

(** ** Instance order *)

Lemma StronglySorted_sublist {A : Type} (R : relation A) (l1 l2 : list A) :
  sublist l1 l2 -> StronglySorted R l2 -> StronglySorted R l1.
Proof.
  induction 1 as [|x l1 l2 Hsub IH|x l1 l2 Hsub IH]; intros Hs.
  - constructor.
  - apply StronglySorted_inv in Hs as [Hs Hx]. constructor; [auto|].
    apply list.Forall_forall. intros y Hy.
    apply (proj1 (list.Forall_forall _ _) Hx).
    eapply elem_of_sublist; eauto.
  - apply StronglySorted_inv in Hs as [Hs _]. auto.
Qed.

Lemma StronglySorted_of_fmap {A B : Type} (f : A -> B) (R : relation B) (l : list A) :
  StronglySorted R (f <$> l) -> StronglySorted (fun x y => R (f x) (f y)) l.
Proof.
  induction l as [|x l IH]; intros Hs; [constructor|].
  apply StronglySorted_inv in Hs as [Hs Hx]. constructor; [auto|].
  apply list.Forall_forall. intros y Hy.
  apply (proj1 (list.Forall_forall _ _) Hx).
  apply list_elem_of_fmap_2. exact Hy.
Qed.

Lemma cmp_key_eq k1 k2 : cmp_key k1 k2 = Eq -> k1 = k2.
Proof.
  unfold cmp_key. revert k2.
  induction k1 as [|x k1 IH]; intros [|y k2]; simpl; try congruence.
  rewrite lexc_Eq. intros [Hx Hk]. apply String.compare_eq_iff in Hx.
  f_equal; auto.
Qed.

Lemma descending_trans : Transitive descending.
Proof. intros a b c. apply (cmp_ge_trans _ cmp_key_laws). Qed.

Lemma descending_antisym k1 k2 : descending k1 k2 -> descending k2 k1 -> k1 = k2.
Proof.
  unfold descending. intros H12 H21. apply cmp_key_eq.
  rewrite (cmp_flip _ cmp_key_laws k1 k2) in H21.
  destruct (cmp_key k1 k2); simpl in *; congruence.
Qed.

(** One level of the cascade of [less]: equal fields pass to the next
    level, different fields decide. *)
Ltac less_field x y :=
  destruct (String.eqb_spec x y) as [->|?]; simpl;
  [ rewrite (cmp_refl _ String_compare_laws); simpl
  | let E := fresh "E" in
    destruct (String.compare x y) eqn:E; simpl;
    [ apply String.compare_eq_iff in E; contradiction
    | split; congruence
    | split; congruence ] ].

(** The cascade of [less] is "greater" in the order on keys. *)
Lemma less_cmp_key a b : less a b = true <-> cmp_key (keyOf a) (keyOf b) = Gt.
Proof.
  unfold less, cmp_key, keyOf, str_gt. simpl.
  less_field (Namespace a) (Namespace b).
  less_field (Job a) (Job b).
  less_field (Group a) (Group b).
  less_field (Task a) (Task b).
  split; congruence.
Qed.

Lemma less_false a b : less a b = false <-> cmp_key (keyOf a) (keyOf b) <> Gt.
Proof. rewrite <- less_cmp_key. destruct (less a b); split; congruence. Qed.

Lemma less_strict_weak : StrictWeakOrder less.
Proof.
  pose proof cmp_key_laws as LK. split.
  - intros a. apply less_false. rewrite (cmp_refl _ LK). discriminate.
  - intros a b c. rewrite !less_cmp_key. apply (cmp_gt_trans _ LK).
  - intros a b c. rewrite !less_false. apply (cmp_le_trans _ LK).
Qed.

Lemma mergeSort_contract : @SortContract mergeSort.
Proof.
  split; intros A lt l Hswo; simpl.
  - apply merge_sort_Permutation.
  - apply @StronglySorted_merge_sort.
    + intros a b c Hab Hbc. exact (swo_incomp lt Hswo c b a Hbc Hab).
    + intros a b. destruct (lt b a) eqn:Eba; [|left; reflexivity].
      right. destruct (lt a b) eqn:Eab; [|reflexivity].
      rewrite <- (swo_irrefl lt Hswo a). symmetry.
      exact (swo_trans lt Hswo a b a Eab Eba).
Qed.

Section OrderFacts.
Context {regexp : RegexpPkg} {version : VersionPkg} {sort : SortPkg}
        {sorted : SortContract} {collab : Collaborators}.

Lemma sortInstances_perm l : sortInstances l ≡ₚ l.
Proof. apply sortSlice_perm, less_strict_weak. Qed.

Lemma sortInstances_sorted l :
  StronglySorted (fun a b => descending (keyOf a) (keyOf b)) (sortInstances l).
Proof.
  pose proof (sortSlice_sorted _ less l less_strict_weak) as Hs.
  unfold sortInstances. induction Hs as [|a l' Hs IH Ha]; constructor; [exact IH|].
  eapply Forall_impl; [exact Ha|]. intros b Hba. simpl in Hba.
  apply less_false in Hba. unfold descending.
  rewrite (cmp_flip _ cmp_key_laws (keyOf b) (keyOf a)).
  destruct (cmp_key (keyOf b) (keyOf a)); simpl; congruence.
Qed.

Lemma sortInstances_keys l l' :
  l ≡ₚ l' -> keyOf <$> sortInstances l = keyOf <$> sortInstances l'.
Proof.
  intros Hperm.
  apply (StronglySorted_unique_strong descending).
  - intros k1 k2 _ _. apply descending_antisym.
  - apply StronglySorted_fmap with (R1 := fun a b => descending (keyOf a) (keyOf b));
      [auto|apply sortInstances_sorted].
  - apply StronglySorted_fmap with (R1 := fun a b => descending (keyOf a) (keyOf b));
      [auto|apply sortInstances_sorted].
  - apply fmap_Permutation. rewrite !sortInstances_perm. exact Hperm.
Qed.

Lemma getAllInstances_loop_result client namespaces : forall allInstances instances,
  getAllInstances_loop client namespaces allInstances = (Some instances, None) ->
  exists lists,
    Forall2 (fun namespace l => getInstances client namespace = inr l) namespaces lists
    /\ instances = sortInstances (allInstances ++ concat lists).
Proof.
  induction namespaces as [|namespace rest IH]; intros allInstances instances; simpl.
  - intros [= <-]. exists []. split; [constructor|]. simpl.
    rewrite app_nil_r. reflexivity.
  - destruct (getInstances client namespace) as [err|l] eqn:E; [discriminate|].
    intros Hloop. apply IH in Hloop as (lists & Hall & ->).
    exists (l :: lists). split; [constructor; assumption|]. simpl.
    rewrite app_assoc. reflexivity.
Qed.

Lemma rowKey_reportRow instance latest current updateAvailable :
  rowKey (reportRow instance latest current updateAvailable) = keyOf instance.
Proof. reflexivity. Qed.

Lemma matchInstances_keys m instances : forall table0 table stopped,
  matchInstances m instances table0 = (table, stopped) ->
  exists rows, table = table0 ++ rows
               /\ sublist (rowKey <$> rows) (keyOf <$> instances).
Proof.
  induction instances as [|instance rest IH]; intros table0 table stopped; simpl.
  - intros [= <- _]. exists []. rewrite app_nil_r. split; [reflexivity|constructor].
  - destruct (m !! ref_Name (Image instance)) as [versions|].
    + destruct (NewVersion (ref_Tag (Image instance))) as [err|current].
      { intros [= <- _]. exists []. rewrite app_nil_r.
        split; [reflexivity|apply sublist_nil_l]. }
      destruct (getNewestVersion versions) as [latest|]; simpl.
      * intros Hrun. apply IH in Hrun as (rows & -> & Hsub).
        exists (reportRow instance latest current (GreaterThan latest current) :: rows).
        split; [rewrite <- app_assoc; reflexivity|].
        rewrite fmap_cons, rowKey_reportRow. constructor. exact Hsub.
      * intros [= <- _]. exists []. rewrite app_nil_r.
        split; [reflexivity|apply sublist_nil_l].
    + intros Hrun. apply IH in Hrun as (rows & -> & Hsub).
      exists rows. split; [reflexivity|]. constructor. exact Hsub.
Qed.

(** C8.  The instances [getAllInstances] returns are those of the
    namespaces, sorted descending by namespace, job, group and task; the
    rows the Matcher appends keep that order; and the sequence of keys
    is the same for every order in which the same instances are
    enumerated. *)
Theorem rows_descending (client : Client) (namespaces : list string)
    (instances : list Instance) :
  getAllInstances client namespaces = (Some instances, None) ->
  exists lists,
    Forall2 (fun namespace l => getInstances client namespace = inr l) namespaces lists
    /\ instances ≡ₚ concat lists
    /\ StronglySorted (fun a b => descending (keyOf a) (keyOf b)) instances
    /\ (forall m table stopped,
          matchInstances m instances [] = (table, stopped) ->
          StronglySorted (fun r1 r2 => descending (rowKey r1) (rowKey r2)) table)
    /\ (forall enumerated,
          enumerated ≡ₚ concat lists ->
          keyOf <$> sortInstances enumerated = keyOf <$> instances).
Proof.
  intros Hall. unfold getAllInstances in Hall.
  apply getAllInstances_loop_result in Hall as (lists & Hlists & ->). simpl.
  exists lists. split; [exact Hlists|]. split; [apply sortInstances_perm|].
  split; [apply sortInstances_sorted|]. split.
  - intros m table stopped Hrun.
    apply matchInstances_keys in Hrun as (rows & -> & Hsub). simpl.
    apply StronglySorted_of_fmap.
    apply (StronglySorted_sublist _ _ _ Hsub).
    apply StronglySorted_fmap with (R1 := fun a b => descending (keyOf a) (keyOf b));
      [auto|apply sortInstances_sorted].
  - intros enumerated Hperm. apply sortInstances_keys. exact Hperm.
Qed.
End OrderFacts.

(** ** Configuration and the whole run *)

Section ConfigFacts.
Context {regexp : RegexpPkg} {version : VersionPkg} {reference : ReferencePkg}
        {canon : CanonicalNames} {runtime : GoRuntime} {fair : GoRuntimeLaws}
        {collab : Collaborators}.

Lemma normalizeImages_each images : forall images',
  normalizeImages images = inr images' ->
  Forall2 normalized_from images images'.
Proof.
  induction images as [|image rest IH]; intros images'; simpl.
  - intros [= <-]. constructor.
  - destruct (ParseNormalizedNamed (Name image)) as [err|n] eqn:E; [discriminate|].
    destruct (normalizeImages rest) as [err|rest']; [discriminate|].
    intros [= <-]. constructor; [|apply IH; reflexivity].
    exists n. simpl. auto.
Qed.

Lemma normalizeImages_either images : forall images' configured,
  normalizeImages images = inr images' ->
  Forall2 raw_or_canonical configured images ->
  normalizeImages configured = inr images'.
Proof.
  induction images as [|image rest IH]; intros images' configured Hnorm Hall.
  - apply Forall2_nil_inv_r in Hall as ->. exact Hnorm.
  - apply Forall2_cons_inv_r in Hall as (c & configured' & Hc & Hall & ->).
    simpl in *.
    destruct (ParseNormalizedNamed (Name image)) as [err|n] eqn:E; [discriminate|].
    destruct (normalizeImages rest) as [err|rest'] eqn:Er; [discriminate|].
    injection Hnorm as <-.
    rewrite (IH rest' configured' eq_refl Hall).
    destruct Hc as (Hi & He & [Hn|(n0 & Hn0 & Hn)]).
    + rewrite Hn, E, Hi, He. reflexivity.
    + rewrite E in Hn0. injection Hn0 as <-.
      destruct (normalized_fixed _ _ E) as (n' & Hn' & Heq).
      rewrite Hn, Hn', Heq, Hi, He. reflexivity.
Qed.

Lemma parseConfigFile_ok path decoded conf :
  DecodeFile path = inr decoded ->
  parseConfigFile path = (conf, None) ->
  normalizeImages (Images decoded) = inr (Images conf)
  /\ Server conf = Server decoded
  /\ Namespaces conf = Namespaces decoded.
Proof.
  unfold parseConfigFile. intros ->.
  destruct (normalizeImages (Images decoded)) as [err|images]; [discriminate|].
  intros [= <-]. simpl. auto.
Qed.

(** C10.  [parseConfigFile] replaces every configured image name by
    its canonical form, writing the raw or the canonical form in the
    file gives the same watched images, and the version mapping built
    from them resolves exactly the canonical forms of the configured
    names, which is what an instance's image reference carries. *)
Theorem names_normalized_before_lookup (path : string) (decoded conf : Config) :
  DecodeFile path = inr decoded ->
  parseConfigFile path = (conf, None) ->
  Forall2 normalized_from (Images decoded) (Images conf)
  /\ (forall configured,
        Forall2 raw_or_canonical configured (Images decoded) ->
        normalizeImages configured = inr (Images conf))
  /\ (forall m,
        getImageVersionMapping (Images conf) = (Some m, None) ->
        forall instance : Instance,
          is_Some (m !! ref_Name (Image instance)) <->
          exists raw n, raw ∈ Images decoded
                        /\ ParseNormalizedNamed (Name raw) = inr n
                        /\ ref_Name (Image instance) = Named_Name n).
Proof.
  intros Hdec Hparse.
  destruct (parseConfigFile_ok _ _ _ Hdec Hparse) as (Hnorm & _ & _).
  pose proof (normalizeImages_each _ _ Hnorm) as Heach.
  split; [exact Heach|]. split.
  - intros configured Hall. exact (normalizeImages_either _ _ _ Hnorm Hall).
  - intros m Hm instance.
    destruct (resolve_complete _ _ _ Hm) as (_ & _ & _ & Hkeys).
    rewrite Hkeys. split.
    + intros (w & Hw & Hname).
      apply list_elem_of_lookup in Hw as [i Hi].
      destruct (Forall2_lookup_r _ _ _ _ _ Heach Hi) as (raw & Hraw & n & Hn & Hwn & _).
      exists raw, n. split; [eapply list_elem_of_lookup_2; eauto|].
      split; [exact Hn|congruence].
    + intros (raw & n & Hraw & Hn & Hname).
      apply list_elem_of_lookup in Hraw as [i Hi].
      destruct (Forall2_lookup_l _ _ _ _ _ Heach Hi) as (w & Hw & n' & Hn' & Hwn & _).
      exists w. split; [eapply list_elem_of_lookup_2; eauto|]. congruence.
Qed.
End ConfigFacts.

Section RunFacts.
Context {regexp : RegexpPkg} {version : VersionPkg} {sort : SortPkg}
        {reference : ReferencePkg} {runtime : GoRuntime} {collab : Collaborators}.

(** C7, as the code has it.  When resolution and enumeration
    succeeded, an instance whose image has an entry in the version
    mapping and whose tag does not parse ends the run with that parse
    error, provided the loop got through the instances before it; the
    rows appended for those are never rendered. *)
Theorem unparsable_watched_tag_fails (conf : Config) (nomadClient : Client)
    (m : gmap string (list Version)) (instances before after : list Instance)
    (instance : Instance) (rows : list (list string)) (err : Error) :
  parseConfigFile "./config.toml" = (conf, None) ->
  NewClient (Server conf) = inr nomadClient ->
  getImageVersionMapping (Images conf) = (Some m, None) ->
  getAllInstances nomadClient (Namespaces conf) = (Some instances, None) ->
  instances = before ++ instance :: after ->
  matchInstances m before [] = (rows, Ok tt) ->
  is_Some (m !! ref_Name (Image instance)) ->
  NewVersion (ref_Tag (Image instance)) = inl err ->
  matchInstances m instances [] = (rows, Err err)
  /\ run = {| stdout := None; ending := Err err |}.
Proof.
  intros Hconf Hclient Hmap Hall -> Hbefore Hwatched Htag.
  assert (matchInstances m (before ++ instance :: after) [] = (rows, Err err)) as Hloop.
  { rewrite matchInstances_app, Hbefore.
    apply matchInstances_unparsable; assumption. }
  split; [exact Hloop|].
  unfold run. rewrite Hconf, Hclient, Hmap, Hall. simpl.
  rewrite Hloop. reflexivity.
Qed.
End RunFacts.

(** ** The concrete packages meet their contracts *)

Lemma inOrder_laws : @GoRuntimeLaws inOrder.
Proof. split; intros; simpl; reflexivity. Qed.

Lemma lastFirst_laws : @GoRuntimeLaws lastFirst.
Proof.
  split; intros; simpl; [|reflexivity].
  symmetry. apply Permutation_rev.
Qed.

Lemma DockerNames_fixed s :
  DockerNames.normalize (DockerNames.normalize s) = DockerNames.normalize s.
Proof.
  unfold DockerNames.normalize at 2 3.
  destruct (cut "/" s) as [domain [rest|]] eqn:E.
  - destruct (DockerNames.has_host domain) eqn:Hh.
    + destruct (String.eqb domain "docker.io" && DockerNames.single rest) eqn:Hd.
      * unfold DockerNames.normalize, DockerNames.single. simpl.
        destruct (cut "/" rest) as [b [a|]]; reflexivity.
      * unfold DockerNames.normalize. rewrite E, Hh, Hd. reflexivity.
    + unfold DockerNames.normalize at 1. simpl.
      change (String.append EmptyString s) with s.
      unfold DockerNames.single. rewrite E. reflexivity.
  - unfold DockerNames.normalize, DockerNames.single. simpl.
    destruct (cut "/" s) as [b [a|]]; reflexivity.
Qed.

Lemma DockerNames_nonempty s : DockerNames.normalize s <> EmptyString.
Proof.
  unfold DockerNames.normalize.
  destruct (cut "/" s) as [domain [rest|]] eqn:E; try discriminate.
  destruct (DockerNames.has_host domain); [|discriminate].
  destruct (_ && _); [discriminate|].
  destruct s; [discriminate|discriminate].
Qed.

Lemma DockerNames_canonical : @CanonicalNames DockerNames.pkg.
Proof.
  split. simpl. intros s n Hn.
  destruct s as [|a s]; [discriminate|]. injection Hn as <-.
  exists (DockerNames.normalize (String a s)). split; [|reflexivity].
  pose proof (DockerNames_nonempty (String a s)) as Hne.
  rewrite DockerNames_fixed.
  destruct (DockerNames.normalize (String a s)); [contradiction|reflexivity].
Qed.

(** ** Examples *)

Import Fleet.

(** The tags of the first image after the filter, and the versions they
    parse to. *)
Example filterTags_app :
  @filterTags literalRegexp ["1.0.0"; "1.2.0"; "latest"; "1.1.0-rc1"]
    [] [pat "latest"; pat "rc"] = ["1.0.0"; "1.2.0"].
Proof. reflexivity. Qed.

Example newest_app :
  @getNewestVersion SemVer.pkg [v "1.0.0"; v "1.2.0"] = Some (v "1.2.0").
Proof. reflexivity. Qed.

Example prerelease_below_release :
  @Compare SemVer.pkg (v "1.2.0-rc1") (v "1.2.0") = (-1)%Z.
Proof. reflexivity. Qed.

Example steady_run :
  run_in steady =
  {| stdout :=
       Some [ ["default"; "web"; "frontend"; "server"; "docker.io/library/app";
               "1.2.0"; "1.0.0"; "true"];
              ["default"; "api"; "backend"; "server"; "docker.io/library/app";
               "1.2.0"; "1.2.0"; "false"] ];
     ending := Ok tt |}.
Proof. vm_compute. reflexivity. Qed.

(** C1.  When the filter leaves no tag of a watched image, the version
    mapping has an empty list for it, [getNewestVersion] is called on
    that list and returns nil, and the comparison on the nil version
    panics: the run ends without a table. *)
Theorem empty_version_list_panics :
  @filterTags literalRegexp ["latest"; "1.3.0-rc1"] [] [pat "latest"; pat "rc"] = []
  /\ (exists m,
        @getImageVersionMapping literalRegexp SemVer.pkg inOrder prerelease_only watched
        = (Some m, None)
        /\ m !! ref_Name (Image web) = Some []
        /\ @matchInstances SemVer.pkg m [web] [] = ([], Panic))
  /\ @getNewestVersion SemVer.pkg [] = None
  /\ run_in prerelease_only = {| stdout := None; ending := Panic |}.
Proof.
  split; [reflexivity|]. split; [|split; [reflexivity|vm_compute; reflexivity]].
  eexists. split; [vm_compute; reflexivity|].
  split; vm_compute; reflexivity.
Qed.

(** C2, at a registry that refuses one of two images, with the
    goroutines finishing in the opposite of launch order. *)
Lemma resolve_first_error_wins_denied :
  @fetch_fails literalRegexp denied watched (ErrMsg "UNAUTHORIZED")
  /\ exists err,
       @getImageVersionMapping literalRegexp SemVer.pkg lastFirst denied watched
       = (None, Some err)
       /\ (@fetch_fails literalRegexp denied watched err
           \/ @parse_fails literalRegexp SemVer.pkg lastFirst denied watched err).
Proof.
  assert (@fetch_fails literalRegexp denied watched (ErrMsg "UNAUTHORIZED")) as Hfail.
  { exists {| Name := "ghcr.io/acme/db"; Include := [pat "2"]; Exclude := [] |}.
    split; [right; left|reflexivity]. }
  split; [exact Hfail|].
  apply (@resolve_first_error_wins literalRegexp SemVer.pkg lastFirst lastFirst_laws
           denied watched).
  left. exists (ErrMsg "UNAUTHORIZED"). left. exact Hfail.
Defined.



(** C5, on the two watched instances of the steady fleet: the first
    row reports an update (1.2.0 against 1.0.0). *)
Lemma updateAvailable_strictly_greater_steady :
  @matchInstances SemVer.pkg mapping [web; api] [] = ([web_row; api_row], Ok tt)
  /\ web_row ∈ [web_row; api_row]
  /\ exists instance versions latest current updateAvailable,
       instance ∈ [web; api]
       /\ mapping !! ref_Name (Image instance) = Some versions
       /\ @getNewestVersion SemVer.pkg versions = Some latest
       /\ @NewVersion SemVer.pkg (ref_Tag (Image instance)) = inr current
       /\ web_row = @reportRow SemVer.pkg instance latest current updateAvailable
       /\ (updateAvailable = true <-> (@Compare SemVer.pkg latest current > 0)%Z)
       /\ ((@Compare SemVer.pkg latest current = 0)%Z -> updateAvailable = false).
Proof.
  assert (@matchInstances SemVer.pkg mapping [web; api] []
          = ([web_row; api_row], Ok tt)) as Hrun by (vm_compute; reflexivity).
  assert (web_row ∈ [web_row; api_row]) as Hrow by left.
  split; [exact Hrun|]. split; [exact Hrow|].
  exact (@updateAvailable_strictly_greater SemVer.pkg mapping [web; api]
           [web_row; api_row] (Ok tt) web_row Hrun Hrow).
Defined.

(** C6, on the instance of the image that is not watched. *)
Lemma unwatched_instance_skipped_cache :
  mapping !! ref_Name (Image cache) = None
  /\ @matchInstances SemVer.pkg mapping [cache] [] = ([], Ok tt)
  /\ @matchInstances SemVer.pkg mapping ([web] ++ cache :: [api]) [] =
     @matchInstances SemVer.pkg mapping ([web] ++ [api]) [].
Proof.
  assert (mapping !! ref_Name (Image cache) = None) as Hnone
    by (vm_compute; reflexivity).
  split; [exact Hnone|].
  exact (@unwatched_instance_skipped SemVer.pkg mapping [web] [api] cache [] Hnone).
Defined.

(** C7 fails as stated: the instance of the image that is not watched
    runs a tag that is not a version, and the run renders its table and
    returns no error. *)
Lemma unwatched_unparsable_tag_runs :
  @getAllInstances literalRegexp mergeSort steady tt ["default"; "batch"]
  = (Some [web; api; cache], None)
  /\ @NewVersion SemVer.pkg (ref_Tag (Image cache))
     = inl (ErrMsg "Malformed version: latest")
  /\ run_in steady = {| stdout := Some [web_row; api_row]; ending := Ok tt |}.
Proof. repeat split; vm_compute; reflexivity. Qed.

(** C7, as the code has it, on the fleet with the canary: the row of
    the instance before it is dropped with the table. *)
Lemma unparsable_watched_tag_fails_canary :
  @matchInstances SemVer.pkg mapping [web; canary; api; cache] []
  = ([web_row], Err (ErrMsg "Malformed version: latest"))
  /\ run_in with_canary
     = {| stdout := None; ending := Err (ErrMsg "Malformed version: latest") |}.
Proof.
  apply (@unparsable_watched_tag_fails literalRegexp SemVer.pkg mergeSort
           DockerNames.pkg inOrder with_canary normalized tt mapping
           [web; canary; api; cache] [web] [api; cache] canary [web_row]
           (ErrMsg "Malformed version: latest")).
  - vm_compute. reflexivity.
  - reflexivity.
  - vm_compute. reflexivity.
  - vm_compute. reflexivity.
  - reflexivity.
  - vm_compute. reflexivity.
  - exists [v "1.0.0"; v "1.2.0"]. vm_compute. reflexivity.
  - vm_compute. reflexivity.
Defined.

(** C8, on the steady fleet: the namespaces are enumerated as
    configured and come out in descending order. *)
Lemma rows_descending_steady :
  @getAllInstances literalRegexp mergeSort steady tt ["default"; "batch"]
  = (Some [web; api; cache], None)
  /\ exists lists,
       Forall2 (fun namespace l =>
                  @getInstances literalRegexp steady tt namespace = inr l)
               ["default"; "batch"] lists
       /\ [web; api; cache] ≡ₚ concat lists
       /\ StronglySorted (fun a b => descending (keyOf a) (keyOf b)) [web; api; cache]
       /\ (forall m table stopped,
             @matchInstances SemVer.pkg m [web; api; cache] [] = (table, stopped) ->
             StronglySorted (fun r1 r2 => descending (rowKey r1) (rowKey r2)) table)
       /\ (forall enumerated,
             enumerated ≡ₚ concat lists ->
             keyOf <$> @sortInstances mergeSort enumerated
             = keyOf <$> [web; api; cache]).
Proof.
  assert (@getAllInstances literalRegexp mergeSort steady tt ["default"; "batch"]
          = (Some [web; api; cache], None)) as Hall by (vm_compute; reflexivity).
  split; [exact Hall|].
  exact (@rows_descending literalRegexp SemVer.pkg mergeSort mergeSort_contract
           steady tt ["default"; "batch"] [web; api; cache] Hall).
Defined.

(** C10, on the steady fleet: the first image is configured under its
    short name and looked up under its canonical one. *)
Lemma names_normalized_before_lookup_steady :
  @DecodeFile literalRegexp steady "./config.toml" = inr configured
  /\ @parseConfigFile literalRegexp DockerNames.pkg steady "./config.toml"
     = (normalized, None)
  /\ Forall2 (@normalized_from literalRegexp DockerNames.pkg)
             (Images configured) (Images normalized)
  /\ (forall configured',
        Forall2 (@raw_or_canonical literalRegexp DockerNames.pkg)
                configured' (Images configured) ->
        @normalizeImages literalRegexp DockerNames.pkg configured'
        = inr (Images normalized))
  /\ (forall m,
        @getImageVersionMapping literalRegexp SemVer.pkg inOrder steady
          (Images normalized) = (Some m, None) ->
        forall instance : Instance,
          is_Some (m !! ref_Name (Image instance)) <->
          exists raw n, raw ∈ Images configured
                        /\ @ParseNormalizedNamed DockerNames.pkg (Name raw) = inr n
                        /\ ref_Name (Image instance) = @Named_Name DockerNames.pkg n).
Proof.
  assert (@DecodeFile literalRegexp steady "./config.toml" = inr configured)
    as Hdec by reflexivity.
  assert (@parseConfigFile literalRegexp DockerNames.pkg steady "./config.toml"
          = (normalized, None)) as Hparse by (vm_compute; reflexivity).
  split; [exact Hdec|]. split; [exact Hparse|].
  exact (@names_normalized_before_lookup literalRegexp SemVer.pkg DockerNames.pkg
           DockerNames_canonical inOrder inOrder_laws steady
           "./config.toml" configured normalized Hdec Hparse).
Defined.

(** * Further properties *)

(** ** Tag filter *)

Section FilterMore.
Context {regexp : RegexpPkg}.

Lemma passes_no_patterns tag : passes [] [] tag = true.
Proof. reflexivity. Qed.

Lemma filter_all {A : Type} (f : A -> bool) (l : list A) :
  (forall x, f x = true) -> List.filter f l = l.
Proof.
  intros Hf. induction l as [|x l IH]; simpl; [reflexivity|].
  rewrite Hf, IH. reflexivity.
Qed.

Lemma filter_then_filter {A : Type} (f g : A -> bool) (l : list A) :
  List.filter g (List.filter f l) = List.filter (fun x => f x && g x) l.
Proof.
  induction l as [|x l IH]; simpl; [reflexivity|].
  destruct (f x); simpl; [|exact IH].
  destruct (g x); rewrite IH; reflexivity.
Qed.

Lemma passes_exclude_app include e1 e2 tag :
  passes include (e1 ++ e2) tag = passes include e1 tag && passes [] e2 tag.
Proof.
  unfold passes. rewrite existsb_app, negb_orb. simpl.
  rewrite andb_assoc. reflexivity.
Qed.

Lemma existsb_same_members {A : Type} (f : A -> bool) (l l' : list A) :
  (forall x, In x l <-> In x l') -> existsb f l = existsb f l'.
Proof.
  intros Hsame. apply eq_true_iff_eq. rewrite !existsb_exists.
  split; intros (x & Hx & Hf); exists x; split; try exact Hf; apply Hsame; exact Hx.
Qed.

Lemma passes_same_members include include' exclude exclude' tag :
  (forall r, In r include <-> In r include') ->
  (forall r, In r exclude <-> In r exclude') ->
  passes include exclude tag = passes include' exclude' tag.
Proof.
  intros Hi He. unfold passes.
  rewrite (existsb_same_members _ exclude exclude' He). f_equal.
  destruct include as [|i include], include' as [|i' include'].
  - reflexivity.
  - exfalso. apply (proj2 (Hi i')). left. reflexivity.
  - exfalso. apply (proj1 (Hi i)). left. reflexivity.
  - apply existsb_same_members. exact Hi.
Qed.

(** X1.  Without include and exclude patterns [filterTags] returns the
    tags as they are. *)
Theorem filterTags_no_patterns (tags : list string) :
  filterTags tags [] [] = tags.
Proof.
  rewrite filterTags_filter_spec. unfold filter_spec.
  apply filter_all. apply passes_no_patterns.
Qed.

(** X2.  Filtering a concatenation is concatenating the filtered
    parts. *)
Theorem filterTags_concat (tags1 tags2 : list string)
    (include exclude : list TOMLRegexp) :
  filterTags (tags1 ++ tags2) include exclude =
  filterTags tags1 include exclude ++ filterTags tags2 include exclude.
Proof.
  rewrite !filterTags_filter_spec. unfold filter_spec. apply List.filter_app.
Qed.

(** X3.  Exclude patterns can be applied in two passes: filtering with
    the patterns [e1 ++ e2] is filtering with [e1], then filtering the
    result with no include pattern and [e2]. *)
Theorem filterTags_exclude_split (tags : list string)
    (include e1 e2 : list TOMLRegexp) :
  filterTags tags include (e1 ++ e2) =
  filterTags (filterTags tags include e1) [] e2.
Proof.
  rewrite !filterTags_filter_spec. unfold filter_spec.
  rewrite filter_then_filter. apply List.filter_ext.
  intros tag. apply passes_exclude_app.
Qed.

(** X4.  Only which patterns are listed matters, not their order or
    repetition: pattern lists with the same members filter alike. *)
Theorem filterTags_same_patterns (tags : list string)
    (include include' exclude exclude' : list TOMLRegexp) :
  (forall r, In r include <-> In r include') ->
  (forall r, In r exclude <-> In r exclude') ->
  filterTags tags include exclude = filterTags tags include' exclude'.
Proof.
  intros Hi He. rewrite !filterTags_filter_spec. unfold filter_spec.
  apply List.filter_ext. intros tag. apply passes_same_members; assumption.
Qed.
End FilterMore.

(** ** Newest-version selector *)

Section NewestMore.
Context {version : VersionPkg}.

Lemma newest_fold_member rest : forall v0, fold_left newer rest v0 ∈ v0 :: rest.
Proof.
  induction rest as [|x rest IH]; intros v0; simpl; [left|].
  specialize (IH (newer v0 x)).
  assert (newer v0 x = x \/ newer v0 x = v0) as [E|E]
    by (unfold newer; destruct (GreaterThan x v0); auto).
  - rewrite E in IH |- *. right. exact IH.
  - rewrite E in IH |- *.
    apply elem_of_cons in IH as [->|IH]; [left|right; right; exact IH].
Qed.

(** X5.  Whatever [Compare] does, [getNewestVersion] returns nil on the
    empty slice only, and otherwise an element of the slice. *)
Theorem getNewestVersion_member (versions : list Version) :
  (getNewestVersion versions = None <-> versions = [])
  /\ (forall m, getNewestVersion versions = Some m -> m ∈ versions).
Proof.
  destruct versions as [|v0 rest]; simpl.
  - split; [split; reflexivity|]. discriminate.
  - split; [split; discriminate|].
    intros m [= <-]. apply newest_fold_member.
Qed.

Context {order : VersionOrder}.

Lemma GreaterThan_trans a b c :
  GreaterThan a b = true -> GreaterThan b c = true -> GreaterThan a c = true.
Proof.
  rewrite !GreaterThan_true. intros Hab Hbc.
  apply Compare_flip in Hab, Hbc. apply Compare_flip.
  apply Compare_le_lt with b; [lia|exact Hab].
Qed.

Lemma not_GreaterThan_trans a b c :
  GreaterThan a b = false -> GreaterThan b c = false -> GreaterThan a c = false.
Proof. rewrite !GreaterThan_false. apply Compare_trans. Qed.

Lemma newer_assoc x y z : newer (newer x y) z = newer x (newer y z).
Proof.
  unfold newer.
  destruct (GreaterThan y x) eqn:Hyx, (GreaterThan z y) eqn:Hzy;
    rewrite ?Hyx, ?Hzy; try reflexivity.
  - rewrite (GreaterThan_trans z y x Hzy Hyx). reflexivity.
  - rewrite (not_GreaterThan_trans z y x Hzy Hyx). reflexivity.
Qed.

Lemma newest_fold_newer rest : forall x v0,
  fold_left newer rest (newer x v0) = newer x (fold_left newer rest v0).
Proof.
  induction rest as [|y rest IH]; intros x v0; simpl; [reflexivity|].
  rewrite newer_assoc. apply IH.
Qed.

(** X6.  The newest version of a concatenation is the newer of the
    newest versions of the two parts, the first part winning a tie. *)
Theorem getNewestVersion_concat (versions1 versions2 : list Version) :
  versions1 <> [] -> versions2 <> [] ->
  exists m1 m2,
    getNewestVersion versions1 = Some m1
    /\ getNewestVersion versions2 = Some m2
    /\ getNewestVersion (versions1 ++ versions2) = Some (newer m1 m2).
Proof.
  destruct versions1 as [|a rest1]; [congruence|].
  destruct versions2 as [|b rest2]; [congruence|]. intros _ _.
  exists (fold_left newer rest1 a), (fold_left newer rest2 b). simpl.
  split; [reflexivity|]. split; [reflexivity|].
  rewrite fold_left_app. simpl. rewrite newest_fold_newer. reflexivity.
Qed.
End NewestMore.

(** ** Concurrent resolution *)

Section ResolveMore.
Context {regexp : RegexpPkg} {version : VersionPkg} {runtime : GoRuntime}
        {fair : GoRuntimeLaws} {collab : Collaborators}.

Lemma tasks_all_succeed l : forall st,
  (forall w, w ∈ l -> exists raw, listTags (Name w) = inr raw) ->
  g_err (fold_left goTask l st) = g_err st.
Proof.
  induction l as [|w l IH]; intros st Hok; simpl; [reflexivity|].
  rewrite IH by (intros w' Hw'; apply Hok; right; exact Hw').
  destruct (Hok w) as [raw Hraw]; [left|].
  unfold goTask, getTags. rewrite Hraw. reflexivity.
Qed.

Lemma tasks_other_names l imageName : forall st,
  (forall w, w ∈ l -> Name w <> imageName) ->
  imageTags (fold_left goTask l st) !! imageName = imageTags st !! imageName.
Proof.
  induction l as [|w l IH]; intros st Hne; simpl; [reflexivity|].
  rewrite IH by (intros w' Hw'; apply Hne; right; exact Hw').
  unfold goTask.
  destruct (getTags_cases w) as [(e & _ & ->)|(raw & _ & ->)]; simpl; [reflexivity|].
  apply lookup_insert_ne. apply Hne. left.
Qed.

(** X7.  Two watched entries with one name share one entry of the tag
    mapping, and it holds the filtered tags of the one whose goroutine
    comes last. *)
Theorem last_writer_wins (images before after : list WatchedImage)
    (w : WatchedImage) (tagMap : gmap string (list string)) :
  goSchedule images = before ++ w :: after ->
  (forall w', w' ∈ after -> Name w' <> Name w) ->
  getImageTagMapping images = (Some tagMap, None) ->
  exists raw,
    listTags (Name w) = inr raw
    /\ tagMap !! Name w = Some (filterTags raw (Include w) (Exclude w)).
Proof.
  intros Hsched Hafter. unfold getImageTagMapping.
  rewrite Hsched, fold_left_app. simpl.
  set (st1 := fold_left goTask before _).
  destruct (g_err (fold_left goTask after (goTask st1 w))) eqn:Hfin; [discriminate|].
  intros [= <-]. rewrite tasks_other_names by exact Hafter.
  destruct (getTags_cases w) as [(e & _ & Hg)|(raw & Hraw & Hg)].
  - exfalso.
    assert (is_Some (g_err (goTask st1 w))) as [e' He'].
    { unfold goTask. rewrite Hg. simpl. destruct (g_err st1); eauto. }
    rewrite (tasks_err_keep after _ _ He') in Hfin. discriminate.
  - exists raw. split; [exact Hraw|].
    unfold goTask. rewrite Hg. simpl. apply lookup_insert_eq.
Qed.

(** X8.  The error [getImageTagMapping] returns is that of the first
    goroutine to fail, and [getImageVersionMapping] passes it on
    unwrapped. *)
Theorem first_failure_is_reported (images before after : list WatchedImage)
    (w : WatchedImage) (err : Error) :
  goSchedule images = before ++ w :: after ->
  (forall w', w' ∈ before -> exists raw, listTags (Name w') = inr raw) ->
  listTags (Name w) = inl err ->
  getImageTagMapping images = (None, Some err)
  /\ getImageVersionMapping images = (None, Some err).
Proof.
  intros Hsched Hbefore Hw.
  assert (getImageTagMapping images = (None, Some err)) as Hres.
  { unfold getImageTagMapping. rewrite Hsched, fold_left_app. simpl.
    rewrite (tasks_err_keep after _ err); [reflexivity|].
    unfold goTask, getTags. rewrite Hw. simpl.
    rewrite (tasks_all_succeed before _ Hbefore). reflexivity. }
  split; [exact Hres|].
  unfold getImageVersionMapping. rewrite Hres. reflexivity.
Qed.

Lemma parseTags_first tags e :
  parseTags tags = inl e ->
  exists before tag after,
    tags = before ++ tag :: after
    /\ Forall (fun t => exists ver, NewVersion t = inr ver) before
    /\ NewVersion tag = inl e.
Proof.
  induction tags as [|tagStr tags IH]; simpl; [discriminate|].
  destruct (NewVersion tagStr) as [err|ver] eqn:E.
  - intros [= ->]. exists [], tagStr, tags. auto.
  - destruct (parseTags tags) as [err|vers]; [|discriminate].
    intros [= ->]. destruct IH as (b & t & a & -> & Hb & Ht); [reflexivity|].
    exists (tagStr :: b), t, a. split; [reflexivity|]. split; [|exact Ht].
    constructor; eauto.
Qed.

Lemma parseEntries_error entries : forall parsed om err,
  parseEntries entries parsed = (om, Some err) ->
  exists imageName tags e,
    (imageName, tags) ∈ entries
    /\ parseTags tags = inl e
    /\ err = Wrapf ("couldn't parse image tag version for " ++ imageName) e.
Proof.
  induction entries as [|[n t] entries IH]; intros parsed om err; simpl.
  - discriminate.
  - destruct (parseTags t) as [e|vers] eqn:E.
    + intros [= _ <-]. exists n, t, e. split; [left|]. auto.
    + intros Hrest. apply IH in Hrest as (n' & t' & e' & Hin & Hrest).
      exists n', t', e'. split; [right; exact Hin|exact Hrest].
Qed.

Lemma parseEntries_lookup entries : forall parsed m,
  parseEntries entries parsed = (Some m, None) ->
  NoDup (entries.*1) ->
  (forall imageName tags,
      (imageName, tags) ∈ entries ->
      exists vers, parseTags tags = inr vers /\ m !! imageName = Some vers)
  /\ (forall imageName, imageName ∉ entries.*1 -> m !! imageName = parsed !! imageName).
Proof.
  induction entries as [|[n t] entries IH]; intros parsed m; simpl.
  - intros [= <-] _. split; [|reflexivity].
    intros ? ? Hin. apply elem_of_nil in Hin. contradiction.
  - destruct (parseTags t) as [e|vers] eqn:E; [discriminate|].
    intros Hm Hnd. apply NoDup_cons in Hnd as [Hn Hnd].
    destruct (IH _ _ Hm Hnd) as [Hin Hout]. split.
    + intros k tags Hk. apply elem_of_cons in Hk as [[= -> ->]|Hk]; [|auto].
      exists vers. split; [exact E|].
      rewrite (Hout n Hn). apply lookup_insert_eq.
    + intros k Hk. apply not_elem_of_cons in Hk as [Hne Hk].
      rewrite (Hout k Hk). apply lookup_insert_ne. congruence.
Qed.

Lemma mapRange_keys {V : Type} (m : gmap string V) : NoDup ((mapRange m).*1).
Proof. rewrite (mapRange_perm V m). apply NoDup_fst_map_to_list. Qed.

Lemma version_mapping_values (images : list WatchedImage)
    (m : gmap string (list Version)) :
  getImageVersionMapping images = (Some m, None) ->
  exists tagMap,
    getImageTagMapping images = (Some tagMap, None)
    /\ forall imageName,
         match tagMap !! imageName with
         | None => m !! imageName = None
         | Some tags =>
             exists vers,
               m !! imageName = Some vers
               /\ Forall2 (fun tag ver => NewVersion tag = inr ver) tags vers
         end.
Proof.
  unfold getImageVersionMapping.
  destruct (getImageTagMapping_cases images)
    as [(err & Hres & _)|(tagMap & Hres & _)]; rewrite Hres; [discriminate|].
  simpl. intros Hm. exists tagMap. split; [reflexivity|].
  destruct (parseEntries_lookup _ _ _ Hm (mapRange_keys tagMap)) as [Hin Hout].
  intros k. destruct (tagMap !! k) as [tags|] eqn:Hk.
  - apply elem_of_mapRange in Hk. destruct (Hin _ _ Hk) as (vers & Hp & Hl).
    exists vers. split; [exact Hl|]. apply parseTags_inr. exact Hp.
  - rewrite Hout; [apply lookup_empty|].
    intros Hmem. apply list_elem_of_fmap in Hmem as ([k' tags] & -> & Hmem).
    apply elem_of_mapRange in Hmem. simpl in Hk. congruence.
Qed.

(** X9.  When resolution succeeds, the version mapping has the keys of
    the tag mapping, and under each key the versions its tags parse to,
    one per tag and in the order of the tags. *)
Theorem resolve_values (images : list WatchedImage)
    (m : gmap string (list Version)) :
  getImageVersionMapping images = (Some m, None) ->
  exists tagMap,
    getImageTagMapping images = (Some tagMap, None)
    /\ forall imageName,
         match tagMap !! imageName with
         | None => m !! imageName = None
         | Some tags =>
             exists vers,
               m !! imageName = Some vers
               /\ Forall2 (fun tag ver => NewVersion tag = inr ver) tags vers
         end.
Proof. apply version_mapping_values. Qed.

(** X10.  An error of [getImageVersionMapping] is the error of a fetch,
    or names an image of the tag mapping and wraps the error of the
    first tag of its list that does not parse. *)
Theorem resolve_error_origin (images : list WatchedImage)
    (om : option (gmap string (list Version))) (err : Error) :
  getImageVersionMapping images = (om, Some err) ->
  om = None
  /\ (fetch_fails images err
      \/ exists tagMap imageName before tag after e,
           getImageTagMapping images = (Some tagMap, None)
           /\ tagMap !! imageName = Some (before ++ tag :: after)
           /\ Forall (fun t => exists ver, NewVersion t = inr ver) before
           /\ NewVersion tag = inl e
           /\ err = Wrapf ("couldn't parse image tag version for " ++ imageName) e).
Proof.
  unfold getImageVersionMapping.
  destruct (getImageTagMapping_cases images)
    as [(err' & Hres & Hf)|(tagMap & Hres & _)]; rewrite Hres.
  - intros [= <- <-]. split; [reflexivity|left; exact Hf].
  - simpl. intros Hp. split.
    + destruct om as [m|]; [|reflexivity].
      apply parseEntries_no_error in Hp. discriminate.
    + right. apply parseEntries_error in Hp as (n & t & e & Hin & Ht & ->).
      apply elem_of_mapRange in Hin.
      apply parseTags_first in Ht as (b & tag & a & -> & Hb & Htag).
      exists tagMap, n, b, tag, a, e. auto.
Qed.

(** X11.  With nothing to watch, resolution succeeds with the empty
    mapping. *)
Theorem resolve_nothing_watched :
  getImageVersionMapping [] = (Some ∅, None).
Proof.
  unfold getImageVersionMapping, getImageTagMapping.
  pose proof (goSchedule_perm WatchedImage []) as Hs.
  apply Permutation_nil_r in Hs. rewrite Hs. simpl.
  pose proof (mapRange_perm (list string) ∅) as Hr.
  rewrite map_to_list_empty in Hr. apply Permutation_nil_r in Hr.
  rewrite Hr. reflexivity.
Qed.
End ResolveMore.

(** ** Matcher *)

Section MatcherMore.
Context {version : VersionPkg}.

(** X12.  The loop depends on the watched instances only: it goes as on
    the list with every instance without an entry in the mapping
    removed. *)
Theorem matchInstances_watched_only (m : gmap string (list Version))
    (instances : list Instance) (table : list (list string)) :
  matchInstances m instances table =
  matchInstances m (List.filter (isWatched m) instances) table.
Proof.
  revert table. induction instances as [|instance rest IH]; intros table;
    [reflexivity|].
  simpl. unfold isWatched at 1.
  destruct (m !! ref_Name (Image instance)) as [versions|] eqn:Hm; [|apply IH].
  simpl. rewrite Hm.
  destruct (NewVersion (ref_Tag (Image instance))) as [err|current]; [reflexivity|].
  destruct (getNewestVersion versions) as [latest|]; simpl; [apply IH|reflexivity].
Qed.

(** X13.  When the loop runs to its end it has appended exactly one row
    per watched instance, in the order of the instances, and kept the
    rows that were there. *)
Theorem matchInstances_success_rows (m : gmap string (list Version))
    (instances : list Instance) (table0 table : list (list string)) :
  matchInstances m instances table0 = (table, Ok tt) ->
  exists rows,
    table = table0 ++ rows
    /\ Forall2 (rowFor m) (List.filter (isWatched m) instances) rows.
Proof.
  revert table0. induction instances as [|instance rest IH]; intros table0; simpl.
  - intros [= <-]. exists []. rewrite app_nil_r. split; [reflexivity|constructor].
  - unfold isWatched at 1.
    destruct (m !! ref_Name (Image instance)) as [versions|] eqn:Hm; [|apply IH].
    destruct (NewVersion (ref_Tag (Image instance))) as [err|current] eqn:Hc;
      [discriminate|].
    destruct (getNewestVersion versions) as [latest|] eqn:Hl; simpl; [|discriminate].
    intros Hrun. apply IH in Hrun as (rows & -> & Hrows).
    exists (reportRow instance latest current (GreaterThan latest current) :: rows).
    split; [rewrite <- app_assoc; reflexivity|].
    constructor; [|exact Hrows].
    exists versions, latest, current. auto.
Qed.

Lemma matchInstances_stop m instances : forall table0 table stopped,
  matchInstances m instances table0 = (table, stopped) ->
  stopped <> Ok tt ->
  exists before instance after versions,
    instances = before ++ instance :: after
    /\ matchInstances m before table0 = (table, Ok tt)
    /\ m !! ref_Name (Image instance) = Some versions
    /\ match NewVersion (ref_Tag (Image instance)) with
       | inl err => stopped = Err err
       | inr _ => versions = [] /\ stopped = Panic
       end.
Proof.
  induction instances as [|instance rest IH]; intros table0 table stopped; simpl.
  - intros [= <- <-] Hne. congruence.
  - destruct (m !! ref_Name (Image instance)) as [versions|] eqn:Hm.
    + destruct (NewVersion (ref_Tag (Image instance))) as [err|current] eqn:Hc.
      { intros [= <- <-] _. exists [], instance, rest, versions.
        rewrite Hc. auto. }
      destruct (getNewestVersion versions) as [latest|] eqn:Hl; simpl.
      * intros Hrun Hne.
        destruct (IH _ _ _ Hrun Hne) as (b & i & a & vs & -> & Hb & Hrest).
        exists (instance :: b), i, a, vs. split; [reflexivity|].
        split; [|exact Hrest]. simpl. rewrite Hm, Hc, Hl. simpl. exact Hb.
      * intros [= <- <-] _. exists [], instance, rest, versions.
        rewrite Hc. split; [reflexivity|]. split; [reflexivity|].
        split; [exact Hm|]. split; [|reflexivity].
        destruct versions; [reflexivity|discriminate].
    + intros Hrun Hne.
      destruct (IH _ _ _ Hrun Hne) as (b & i & a & vs & -> & Hb & Hrest).
      exists (instance :: b), i, a, vs. split; [reflexivity|].
      split; [|exact Hrest]. simpl. rewrite Hm. exact Hb.
Qed.

(** X14.  The loop panics exactly when it reaches an instance whose
    mapping entry is the empty list and whose tag parses; with no empty
    list in the mapping it never panics. *)
Theorem matchInstances_panic_iff (m : gmap string (list Version))
    (instances : list Instance) (table0 table : list (list string)) :
  (matchInstances m instances table0 = (table, Panic) <->
   exists before instance after current,
     instances = before ++ instance :: after
     /\ matchInstances m before table0 = (table, Ok tt)
     /\ m !! ref_Name (Image instance) = Some []
     /\ NewVersion (ref_Tag (Image instance)) = inr current)
  /\ ((forall imageName, m !! imageName <> Some []) ->
      snd (matchInstances m instances table0) <> Panic).
Proof.
  assert (matchInstances m instances table0 = (table, Panic) ->
          exists before instance after current,
            instances = before ++ instance :: after
            /\ matchInstances m before table0 = (table, Ok tt)
            /\ m !! ref_Name (Image instance) = Some []
            /\ NewVersion (ref_Tag (Image instance)) = inr current) as Hfwd.
  { intros Hrun.
    destruct (matchInstances_stop _ _ _ _ _ Hrun)
      as (b & i & a & vs & -> & Hb & Hm & Hstop); [discriminate|].
    destruct (NewVersion (ref_Tag (Image i))) as [err|current] eqn:Hc;
      [discriminate|].
    destruct Hstop as [-> _]. exists b, i, a, current. auto. }
  split; [split; [exact Hfwd|]|].
  - intros (b & i & a & current & -> & Hb & Hm & Hc).
    rewrite matchInstances_app, Hb.
    apply matchInstances_no_versions with current; assumption.
  - intros Hnonempty Hpanic.
    destruct (matchInstances m instances table0) as [t stopped] eqn:Hrun.
    simpl in Hpanic. subst stopped.
    destruct (matchInstances_stop _ _ _ _ _ Hrun)
      as (b & i & a & vs & _ & _ & Hm & Hstop); [discriminate|].
    destruct (NewVersion (ref_Tag (Image i))); [discriminate|].
    destruct Hstop as [-> _]. exact (Hnonempty _ Hm).
Qed.

(** X15.  The loop returns an error exactly when it reaches a watched
    instance whose tag does not parse; the error is that of the first
    such instance, and the buffer holds the rows of the instances before
    it. *)
Theorem matchInstances_error_iff (m : gmap string (list Version))
    (instances : list Instance) (table0 table : list (list string))
    (err : Error) :
  matchInstances m instances table0 = (table, Err err) <->
  exists before instance after,
    instances = before ++ instance :: after
    /\ matchInstances m before table0 = (table, Ok tt)
    /\ is_Some (m !! ref_Name (Image instance))
    /\ NewVersion (ref_Tag (Image instance)) = inl err.
Proof.
  split.
  - intros Hrun.
    destruct (matchInstances_stop _ _ _ _ _ Hrun)
      as (b & i & a & vs & -> & Hb & Hm & Hstop); [discriminate|].
    destruct (NewVersion (ref_Tag (Image i))) as [e|current] eqn:Hc.
    + injection Hstop as <-. exists b, i, a. eauto.
    + destruct Hstop as [_ Hstop]. discriminate.
  - intros (b & i & a & -> & Hb & Hm & Hc).
    rewrite matchInstances_app, Hb.
    apply matchInstances_unparsable; assumption.
Qed.
End MatcherMore.

(** ** Configuration *)

Section ConfigMore.
Context {regexp : RegexpPkg} {reference : ReferencePkg} {collab : Collaborators}.

Lemma normalizeImages_first_error images err :
  normalizeImages images = inl err ->
  exists before image after,
    images = before ++ image :: after
    /\ Forall (fun i => exists n, ParseNormalizedNamed (Name i) = inr n) before
    /\ ParseNormalizedNamed (Name image) = inl err.
Proof.
  induction images as [|image rest IH]; simpl; [discriminate|].
  destruct (ParseNormalizedNamed (Name image)) as [e|n] eqn:E.
  - intros [= ->]. exists [], image, rest. auto.
  - destruct (normalizeImages rest) as [e|rest']; [|discriminate].
    intros [= ->]. destruct IH as (b & i & a & -> & Hb & Hi); [reflexivity|].
    exists (image :: b), i, a. split; [reflexivity|]. split; [|exact Hi].
    constructor; eauto.
Qed.

Lemma normalizeImages_bad_name images image e :
  image ∈ images -> ParseNormalizedNamed (Name image) = inl e ->
  exists err, normalizeImages images = inl err.
Proof.
  induction images as [|i rest IH]; intros Hin He.
  - apply elem_of_nil in Hin. contradiction.
  - simpl. destruct (ParseNormalizedNamed (Name i)) as [e'|n] eqn:E; [eauto|].
    apply elem_of_cons in Hin as [->|Hin]; [congruence|].
    destruct (IH Hin He) as [err ->]. eauto.
Qed.

(** X16.  [parseConfigFile] is all or nothing: one image name that does
    not normalise fails the whole configuration, an error comes with the
    empty configuration, and it is the decoding error or the error of the
    first name that does not normalise. *)
Theorem parseConfigFile_all_or_nothing (path : string) :
  (forall decoded image e,
      DecodeFile path = inr decoded ->
      image ∈ Images decoded ->
      ParseNormalizedNamed (Name image) = inl e ->
      exists err, parseConfigFile path = (emptyConfig, Some err))
  /\ (forall conf err,
        parseConfigFile path = (conf, Some err) ->
        conf = emptyConfig
        /\ (DecodeFile path = inl err
            \/ exists decoded before image after,
                 DecodeFile path = inr decoded
                 /\ Images decoded = before ++ image :: after
                 /\ Forall (fun i => exists n, ParseNormalizedNamed (Name i) = inr n)
                           before
                 /\ ParseNormalizedNamed (Name image) = inl err)).
Proof.
  unfold parseConfigFile. split.
  - intros decoded image e -> Hin He.
    destruct (normalizeImages_bad_name _ _ _ Hin He) as [err ->]. eauto.
  - intros conf err. destruct (DecodeFile path) as [e|decoded] eqn:Hd.
    + intros [= <- <-]. split; [reflexivity|left; reflexivity].
    + destruct (normalizeImages (Images decoded)) as [e|images] eqn:Hn;
        [|discriminate].
      intros [= <- <-]. split; [reflexivity|]. right.
      apply normalizeImages_first_error in Hn as (b & i & a & Himg & Hb & Hi).
      exists decoded, b, i, a. auto.
Qed.
End ConfigMore.

(** ** Instance order and enumeration *)

(** X17.  [less] compares the four identifiers only: of two instances
    either one is less than the other, or they have the same namespace,
    job, group and task; never two of these at once. *)
Theorem less_trichotomy (a b : Instance) :
  (less a b = true /\ less b a = false /\ keyOf a <> keyOf b)
  \/ (less a b = false /\ less b a = false /\ keyOf a = keyOf b)
  \/ (less a b = false /\ less b a = true /\ keyOf a <> keyOf b).
Proof.
  pose proof cmp_key_laws as LK.
  assert (forall x y, cmp_key (keyOf x) (keyOf y) = Gt ->
                      less x y = true /\ less y x = false /\ keyOf x <> keyOf y) as Hgt.
  { intros x y Hxy. split; [apply less_cmp_key; exact Hxy|]. split.
    - apply less_false. rewrite (cmp_flip _ LK), Hxy. discriminate.
    - intros Heq. rewrite Heq, (cmp_refl _ LK) in Hxy. discriminate. }
  destruct (cmp_key (keyOf a) (keyOf b)) eqn:Hab.
  - right. left. split; [|split].
    + apply less_false. rewrite Hab. discriminate.
    + apply less_false. rewrite (cmp_flip _ LK), Hab. discriminate.
    + apply cmp_key_eq. exact Hab.
  - right. right.
    destruct (Hgt b a) as (H1 & H2 & H3).
    { rewrite (cmp_flip _ LK), Hab. reflexivity. }
    split; [exact H2|]. split; [exact H1|]. congruence.
  - left. apply Hgt. exact Hab.
Qed.

Section EnumerationMore.
Context {regexp : RegexpPkg} {sort : SortPkg} {sorted : SortContract}
        {collab : Collaborators}.

Lemma getAllInstances_loop_error client namespaces : forall allInstances o err,
  getAllInstances_loop client namespaces allInstances = (o, Some err) ->
  o = None
  /\ exists before namespace after,
       namespaces = before ++ namespace :: after
       /\ Forall (fun ns => exists l, getInstances client ns = inr l) before
       /\ getInstances client namespace = inl err.
Proof.
  induction namespaces as [|namespace rest IH]; intros allInstances o err; simpl.
  - discriminate.
  - destruct (getInstances client namespace) as [e|l] eqn:E.
    + intros [= <- <-]. split; [reflexivity|]. exists [], namespace, rest. auto.
    + intros Hloop. apply IH in Hloop as (-> & b & ns & a & -> & Hb & Hns).
      split; [reflexivity|]. exists (namespace :: b), ns, a.
      split; [reflexivity|]. split; [|exact Hns]. constructor; eauto.
Qed.

Lemma getAllInstances_loop_fails client before namespace after err :
  forall allInstances,
  Forall (fun ns => exists l, getInstances client ns = inr l) before ->
  getInstances client namespace = inl err ->
  getAllInstances_loop client (before ++ namespace :: after) allInstances
  = (None, Some err).
Proof.
  induction before as [|ns before IH]; intros allInstances Hb Hns; simpl.
  - rewrite Hns. reflexivity.
  - apply Forall_cons in Hb as [[l Hl] Hb]. rewrite Hl. apply IH; assumption.
Qed.

(** X18.  [getAllInstances] returns an error exactly when a namespace
    cannot be enumerated: the error of the first such namespace in
    configuration order, and no instances at all. *)
Theorem getAllInstances_error_iff (client : Client) (namespaces : list string)
    (o : option (list Instance)) (err : Error) :
  getAllInstances client namespaces = (o, Some err) <->
  o = None
  /\ exists before namespace after,
       namespaces = before ++ namespace :: after
       /\ Forall (fun ns => exists l, getInstances client ns = inr l) before
       /\ getInstances client namespace = inl err.
Proof.
  unfold getAllInstances. split.
  - apply getAllInstances_loop_error.
  - intros (-> & b & ns & a & -> & Hb & Hns).
    apply getAllInstances_loop_fails; assumption.
Qed.

(** X19.  With no namespace configured, [getAllInstances] returns the
    empty list and no error. *)
Theorem getAllInstances_no_namespaces (client : Client) :
  getAllInstances client [] = (Some [], None).
Proof.
  unfold getAllInstances. simpl.
  pose proof (sortInstances_perm []) as Hp. apply Permutation_nil_r in Hp.
  rewrite Hp. reflexivity.
Qed.
End EnumerationMore.

(** ** The whole run *)

Section RunMore.
Context {regexp : RegexpPkg} {version : VersionPkg} {sort : SortPkg}
        {sorted : SortContract} {reference : ReferencePkg} {runtime : GoRuntime}
        {fair : GoRuntimeLaws} {collab : Collaborators}.

Lemma parseEntries_shape entries : forall parsed,
  (exists m, parseEntries entries parsed = (Some m, None))
  \/ (exists err, parseEntries entries parsed = (None, Some err)).
Proof.
  induction entries as [|[n t] entries IH]; intros parsed; simpl; [eauto|].
  destruct (parseTags t); [eauto|apply IH].
Qed.

Lemma getImageVersionMapping_shape images :
  (exists m, getImageVersionMapping images = (Some m, None))
  \/ (exists err, getImageVersionMapping images = (None, Some err)).
Proof.
  unfold getImageVersionMapping, getImageTagMapping.
  destruct (g_err _); [eauto|]. apply parseEntries_shape.
Qed.

Lemma getAllInstances_shape client namespaces :
  (exists instances, getAllInstances client namespaces = (Some instances, None))
  \/ (exists err, getAllInstances client namespaces = (None, Some err)).
Proof.
  unfold getAllInstances. generalize (@nil Instance).
  induction namespaces as [|ns rest IH]; intros acc; simpl; [eauto|].
  destruct (getInstances client ns); [eauto|apply IH].
Qed.

(** The stages of a run that got as far as the Matcher. *)
Lemma run_stages :
  (exists err, run = failed err)
  \/ exists conf nomadClient m instances table stopped,
       parseConfigFile "./config.toml" = (conf, None)
       /\ NewClient (Server conf) = inr nomadClient
       /\ getImageVersionMapping (Images conf) = (Some m, None)
       /\ getAllInstances nomadClient (Namespaces conf) = (Some instances, None)
       /\ matchInstances m instances [] = (table, stopped)
       /\ run = match stopped with
                | Ok _ => {| stdout := Some table; ending := Ok tt |}
                | _ => {| stdout := None; ending := stopped |}
                end.
Proof.
  unfold run.
  destruct (parseConfigFile "./config.toml") as [conf [err|]] eqn:Hp; [eauto|].
  destruct (NewClient (Server conf)) as [err|nomadClient] eqn:Hc; [eauto|].
  destruct (getImageVersionMapping_shape (Images conf)) as [[m Hm]|[err Hm]];
    rewrite Hm; [|eauto].
  destruct (getAllInstances_shape nomadClient (Namespaces conf))
    as [[instances Hi]|[err Hi]]; rewrite Hi; [|eauto].
  simpl. destruct (matchInstances m instances []) as [table stopped] eqn:Hrun.
  right. exists conf, nomadClient, m, instances, table, stopped.
  split; [reflexivity|]. split; [exact Hc|]. split; [exact Hm|].
  split; [exact Hi|]. split; [exact Hrun|].
  destruct stopped; reflexivity.
Qed.

(** X20.  [run] renders a table exactly when it returns no error, and
    then every stage succeeded and the table is the buffer of the
    Matcher's loop: no table is rendered after a failure of any stage. *)
Theorem run_table_iff_success :
  (ending run = Ok tt <-> exists rows, stdout run = Some rows)
  /\ forall rows,
       stdout run = Some rows <->
       exists conf nomadClient m instances,
         parseConfigFile "./config.toml" = (conf, None)
         /\ NewClient (Server conf) = inr nomadClient
         /\ getImageVersionMapping (Images conf) = (Some m, None)
         /\ getAllInstances nomadClient (Namespaces conf) = (Some instances, None)
         /\ matchInstances m instances [] = (rows, Ok tt).
Proof.
  split.
  - destruct run_stages as [[err ->]|(c & n & m & i & t & s & _ & _ & _ & _ & _ & ->)].
    + simpl. split; [discriminate|]. intros [rows Hrows]. discriminate.
    + destruct s as [[]|e|]; simpl; split; try discriminate; eauto;
        intros [rows Hrows]; discriminate.
  - intros rows. split.
    + destruct run_stages
        as [[err ->]|(c & n & m & i & t & s & Hc & Hn & Hm & Hi & Hrun & ->)];
        [discriminate|].
      destruct s as [[]|e|]; simpl; try discriminate.
      intros [= <-]. exists c, n, m, i. auto.
    + intros (c & n & m & i & Hc & Hn & Hm & Hi & Hrun).
      unfold run. rewrite Hc, Hn, Hm, Hi. simpl. rewrite Hrun. reflexivity.
Qed.

(** X21.  [main] exits with status 0 exactly when the table was
    rendered; it prints an error exactly when [run] returned it, with
    status 1 and no table; and a panic leaves no table either. *)
Theorem main_exit_status :
  (status main = Exited 0 <-> exists rows, printed main = Some rows)
  /\ (forall err, reported_error main = Some err <-> ending run = Err err)
  /\ (forall err, reported_error main = Some err ->
                  status main = Exited 1 /\ printed main = None)
  /\ (status main = Crashed -> printed main = None /\ reported_error main = None).
Proof.
  unfold main.
  destruct run_stages as [[err ->]|(c & n & m & i & t & s & _ & _ & _ & _ & _ & ->)].
  - simpl. split; [split; [discriminate|intros [? ?]; discriminate]|].
    split; [intros e; split; congruence|].
    split; [intros e _; auto|discriminate].
  - destruct s as [[]|e|]; simpl.
    + split; [split; eauto|]. split; [intros e; split; discriminate|].
      split; discriminate.
    + split; [split; [discriminate|intros [? ?]; discriminate]|].
      split; [intros e'; split; congruence|].
      split; [intros e' _; auto|discriminate].
    + split; [split; [discriminate|intros [? ?]; discriminate]|].
      split; [intros e'; split; discriminate|].
      split; [discriminate|auto].
Qed.
End RunMore.

Section Provenance.
Context {regexp : RegexpPkg} {version : VersionPkg} {sort : SortPkg}
        {sorted : SortContract} {reference : ReferencePkg} {runtime : GoRuntime}
        {fair : GoRuntimeLaws} {collab : Collaborators}.

(** Where a version of the mapping comes from: a tag the registry
    listed for the image, kept by the filter of a watched entry with
    that name. *)
Lemma version_provenance images m imageName versions ver :
  getImageVersionMapping images = (Some m, None) ->
  m !! imageName = Some versions -> ver ∈ versions ->
  exists w raw tag,
    w ∈ images /\ Name w = imageName
    /\ listTags imageName = inr raw
    /\ In tag raw
    /\ passes (Include w) (Exclude w) tag = true
    /\ NewVersion tag = inr ver.
Proof.
  intros Hm Hlook Hver.
  destruct (version_mapping_values _ _ Hm) as (tagMap & Htags & Hvals).
  specialize (Hvals imageName).
  destruct (tagMap !! imageName) as [tags|] eqn:Htag; [|congruence].
  destruct Hvals as (vers & Hvers & Hall). rewrite Hlook in Hvers.
  injection Hvers as <-.
  apply list_elem_of_lookup in Hver as [i Hi].
  destruct (Forall2_lookup_r _ _ _ _ _ Hall Hi) as (tag & Hti & Hnew).
  destruct (getImageTagMapping_entries _ _ Htags) as [Hent _].
  destruct (Hent _ _ Htag) as (w & raw & Hw & Hname & Hraw & ->).
  assert (tag ∈ filterTags raw (Include w) (Exclude w)) as Hin
    by (eapply list_elem_of_lookup_2; eauto).
  rewrite filterTags_filter_spec in Hin. unfold filter_spec in Hin.
  apply list_elem_of_In, filter_In in Hin as [Hinraw Hpass].
  exists w, raw, tag. rewrite <- Hname.
  repeat (split; [assumption || reflexivity|]). assumption.
Qed.

Lemma enumerated_instance client namespaces instances instance :
  getAllInstances client namespaces = (Some instances, None) ->
  instance ∈ instances ->
  exists namespace l,
    namespace ∈ namespaces
    /\ getInstances client namespace = inr l
    /\ instance ∈ l.
Proof.
  intros Hall Hin. unfold getAllInstances in Hall.
  apply getAllInstances_loop_result in Hall as (lists & Hlists & ->).
  simpl in Hin. rewrite sortInstances_perm in Hin.
  apply list_elem_of_In, in_concat in Hin as (l & Hl & Hinl).
  apply list_elem_of_In in Hl, Hinl.
  apply list_elem_of_lookup in Hl as [i Hi].
  destruct (Forall2_lookup_r _ _ _ _ _ Hlists Hi) as (ns & Hns & Hget).
  exists ns, l. split; [eapply list_elem_of_lookup_2; eauto|]. auto.
Qed.

(** X22.  Every row of a rendered table is about an instance the
    scheduler enumerated for a configured namespace, whose image is a
    configured image under its canonical name; its latest version is the
    parse of a tag that the registry listed for that image and that
    passes the image's include and exclude patterns; and its current
    version is the parse of the instance's tag. *)
Theorem rendered_rows_sound (rows : list (list string)) (row : list string) :
  stdout run = Some rows -> row ∈ rows ->
  exists decoded image n nomadClient namespace enumerated instance raw tag
         latest current,
    DecodeFile "./config.toml" = inr decoded
    /\ image ∈ Images decoded
    /\ ParseNormalizedNamed (Name image) = inr n
    /\ Named_Name n = ref_Name (Image instance)
    /\ listTags (ref_Name (Image instance)) = inr raw
    /\ In tag raw
    /\ passes (Include image) (Exclude image) tag = true
    /\ NewVersion tag = inr latest
    /\ NewClient (Server decoded) = inr nomadClient
    /\ namespace ∈ Namespaces decoded
    /\ getInstances nomadClient namespace = inr enumerated
    /\ instance ∈ enumerated
    /\ NewVersion (ref_Tag (Image instance)) = inr current
    /\ row = reportRow instance latest current (GreaterThan latest current).
Proof.
  intros Hout Hrow.
  destruct run_stages
    as [[err Hrun]|(conf & client & m & instances & t & s
                    & Hconf & Hclient & Hm & Hall & Hloop & Hrun)];
    rewrite Hrun in Hout; [discriminate|].
  destruct s as [[]|e|]; simpl in Hout; try discriminate.
  injection Hout as ->.
  destruct (matchInstances_rows _ _ _ _ _ _ Hloop Hrow)
    as [Hnil|(instance & versions & latest & current & Hi & Hlook & Hl & Hc & ->)].
  { apply elem_of_nil in Hnil. contradiction. }
  assert (latest ∈ versions) as Hlatest.
  { destruct versions as [|v0 rest]; [discriminate|].
    simpl in Hl. injection Hl as <-. apply newest_fold_member. }
  destruct (version_provenance _ _ _ _ _ Hm Hlook Hlatest)
    as (w & raw & tag & Hw & Hname & Hraw & Htag & Hpass & Hnew).
  destruct (DecodeFile "./config.toml") as [e|decoded] eqn:Hdec.
  { unfold parseConfigFile in Hconf. rewrite Hdec in Hconf. discriminate. }
  destruct (parseConfigFile_ok _ _ _ Hdec Hconf) as (Hnorm & Hserver & Hns).
  pose proof (normalizeImages_each _ _ Hnorm) as Heach.
  apply list_elem_of_lookup in Hw as [k Hk].
  destruct (Forall2_lookup_r _ _ _ _ _ Heach Hk)
    as (image & Himage & n & Hn & Hwn & Hinc & Hexc).
  destruct (enumerated_instance _ _ _ _ Hall Hi) as (ns & l & Hnsin & Hget & Hil).
  exists decoded, image, n, client, ns, l, instance, raw, tag, latest, current.
  split; [reflexivity|]. split; [eapply list_elem_of_lookup_2; eauto|].
  split; [exact Hn|]. split; [congruence|]. split; [exact Hraw|].
  split; [exact Htag|]. split; [rewrite <- Hinc, <- Hexc; exact Hpass|].
  split; [exact Hnew|]. split; [rewrite <- Hserver; exact Hclient|].
  split; [rewrite <- Hns; exact Hnsin|]. auto.
Qed.
End Provenance.

(** ** Scheduler enumeration *)

Section SchedulerFacts.
Context {nomad : NomadAPI} {refs : DockerRefPkg}.

Lemma tasksLoop_ok als groupName tasks : forall instances result,
  Scheduler.tasksLoop als groupName tasks instances = Ok result ->
  result = instances
           ++ omap (Scheduler.reported als (default "" groupName)) tasks.
Proof.
  induction tasks as [|task rest IH]; intros instances result; simpl.
  - intros [= <-]. symmetry. apply app_nil_r.
  - unfold Scheduler.reported at 1.
    destruct (String.eqb (task_Driver task) "docker"); simpl; [|apply IH].
    destruct (task_Config task !! "image") as [[imageStr|]|]; try discriminate.
    destruct (String.prefix "$" imageStr); [apply IH|].
    destruct (ParseDockerRef imageStr) as [e|[tagged|name]]; [apply IH| |].
    + destruct groupName as [group|]; [|discriminate]. simpl.
      intros Hloop. apply IH in Hloop as ->.
      rewrite <- app_assoc. reflexivity.
    + destruct groupName; discriminate.
Qed.


Lemma tasksLoop_safe als group tasks : forall instances,
  Forall Scheduler.safeTask tasks ->
  Scheduler.tasksLoop als (Some group) tasks instances <> Panic.
Proof.
  induction tasks as [|task rest IH]; intros instances Hsafe; simpl; [discriminate|].
  apply Forall_cons in Hsafe as [Htask Hrest].
  destruct (String.eqb_spec (task_Driver task) "docker") as [Hd|Hd]; simpl;
    [|apply IH; exact Hrest].
  destruct (Htask Hd) as (imageStr & -> & Href).
  destruct (String.prefix "$" imageStr) eqn:Hp; [apply IH; exact Hrest|].
  destruct (ParseDockerRef imageStr) as [e|ref] eqn:Hr; [apply IH; exact Hrest|].
  destruct (Href eq_refl ref eq_refl) as [tagged ->]. apply IH. exact Hrest.
Qed.

Lemma tasksLoop_no_image als groupName tasks task : forall instances,
  task ∈ tasks ->
  task_Driver task = "docker" ->
  (forall imageStr, task_Config task !! "image" <> Some (StringValue imageStr)) ->
  Scheduler.tasksLoop als groupName tasks instances = Panic.
Proof.
  induction tasks as [|t rest IH]; intros instances Hin Hd Hconf.
  - apply elem_of_nil in Hin. contradiction.
  - apply elem_of_cons in Hin as [<-|Hin]; simpl.
    + rewrite Hd. simpl.
      destruct (task_Config task !! "image") as [[imageStr|]|] eqn:E;
        try reflexivity.
      destruct (Hconf imageStr). reflexivity.
    + assert (forall acc, Scheduler.tasksLoop als groupName rest acc = Panic) as Hrest
        by (intros acc; apply IH; assumption).
      destruct (negb _); [apply Hrest|].
      destruct (task_Config t !! "image") as [[imageStr|]|]; try reflexivity.
      destruct (String.prefix "$" imageStr); [apply Hrest|].
      destruct (ParseDockerRef imageStr) as [e|[tagged|name]]; [apply Hrest| |].
      * destruct groupName; [apply Hrest|reflexivity].
      * destruct groupName; reflexivity.
Qed.

Lemma allocsLoop_ok client namespace alss : forall instances result,
  Scheduler.allocsLoop client namespace alss instances = Ok result ->
  exists groups,
    Forall2 (fun als tg =>
               exists alloc,
                 AllocationsInfo client (als_ID als) namespace = inr alloc
                 /\ GetTaskGroup alloc = Some tg) alss groups
    /\ result = instances
                ++ concat (zip_with
                             (fun als tg =>
                                omap (Scheduler.reported als (default "" (tg_Name tg)))
                                     (tg_Tasks tg))
                             alss groups).
Proof.
  induction alss as [|als rest IH]; intros instances result; simpl.
  - intros [= <-]. exists []. split; [constructor|]. simpl.
    symmetry. apply app_nil_r.
  - destruct (AllocationsInfo client (als_ID als) namespace) as [e|alloc] eqn:Hi;
      [discriminate|].
    destruct (GetTaskGroup alloc) as [tg|] eqn:Hg; [|discriminate].
    destruct (Scheduler.tasksLoop als (tg_Name tg) (tg_Tasks tg) instances)
      as [instances'| |] eqn:Ht; try discriminate.
    intros Hloop. apply IH in Hloop as (groups & Hall & ->).
    apply tasksLoop_ok in Ht as ->.
    exists (tg :: groups). split; [constructor; eauto|].
    simpl. rewrite <- app_assoc. reflexivity.
Qed.


Lemma allocsLoop_safe client namespace alss : forall instances,
  (forall als alloc,
      als ∈ alss ->
      AllocationsInfo client (als_ID als) namespace = inr alloc ->
      exists tg, GetTaskGroup alloc = Some tg /\ Scheduler.safeGroup tg) ->
  Scheduler.allocsLoop client namespace alss instances <> Panic.
Proof.
  induction alss as [|als rest IH]; intros instances Hsafe; simpl; [discriminate|].
  destruct (AllocationsInfo client (als_ID als) namespace) as [e|alloc] eqn:Hi;
    [discriminate|].
  destruct (Hsafe als alloc) as (tg & -> & [group Hname] & Htasks);
    [left|exact Hi|].
  rewrite Hname.
  destruct (Scheduler.tasksLoop als (Some group) (tg_Tasks tg) instances)
    as [instances'|e|] eqn:Ht.
  - apply IH. intros als' alloc' Hin. apply Hsafe. right. exact Hin.
  - discriminate.
  - destruct (tasksLoop_safe _ _ _ _ Htasks Ht).
Qed.

(** X23.  When [getInstances] returns a list, it queried the
    allocations of the namespace (of every namespace, for the blank
    name), every allocation had a task group, and the list is, in the
    order of the allocations and of their tasks, one instance per docker
    task whose image is a string without a leading dollar sign that
    parses to a tagged reference; the other tasks leave no trace. *)
Theorem getInstances_reports (client : ApiClient) (namespace : string)
    (instances : list Instance) :
  Scheduler.getInstances client namespace = Ok instances ->
  Scheduler.queryNamespace "" = "*"
  /\ (namespace <> "" -> Scheduler.queryNamespace namespace = namespace)
  /\ exists alss groups,
       AllocationsList client (Scheduler.queryNamespace namespace) = inr alss
       /\ Forall2 (fun als tg =>
                     exists alloc,
                       AllocationsInfo client (als_ID als)
                         (Scheduler.queryNamespace namespace) = inr alloc
                       /\ GetTaskGroup alloc = Some tg) alss groups
       /\ instances =
          concat (zip_with
                    (fun als tg =>
                       omap (Scheduler.reported als (default "" (tg_Name tg)))
                            (tg_Tasks tg))
                    alss groups).
Proof.
  unfold Scheduler.getInstances. intros Hget.
  split; [reflexivity|]. split.
  - intros Hne. unfold Scheduler.queryNamespace.
    destruct (String.eqb_spec namespace ""); [contradiction|reflexivity].
  - destruct (AllocationsList client (Scheduler.queryNamespace namespace))
      as [e|alss]; [discriminate|].
    apply allocsLoop_ok in Hget as (groups & Hall & ->).
    exists alss, groups. auto.
Qed.


(** X25.  [getInstances] does not panic when every allocation it looks
    up has a task group with a name, every docker task of the group has
    a string image, and every such image that parses carries a tag. *)
Theorem getInstances_safe (client : ApiClient) (namespace : string) :
  (forall alss als alloc,
      AllocationsList client (Scheduler.queryNamespace namespace) = inr alss ->
      als ∈ alss ->
      AllocationsInfo client (als_ID als) (Scheduler.queryNamespace namespace)
      = inr alloc ->
      exists tg, GetTaskGroup alloc = Some tg /\ Scheduler.safeGroup tg) ->
  Scheduler.getInstances client namespace <> Panic.
Proof.
  intros Hsafe. unfold Scheduler.getInstances.
  destruct (AllocationsList client (Scheduler.queryNamespace namespace))
    as [e|alss] eqn:Hl; [discriminate|].
  apply allocsLoop_safe. intros als alloc Hin Hi. exact (Hsafe alss als alloc eq_refl Hin Hi).
Qed.

(** X26.  A docker task whose configuration has no string under
    [image] makes [getInstances] panic, wherever the task stands in its
    group, once the loop reaches the allocation. *)
Theorem getInstances_no_image_panics (client : ApiClient) (namespace : string)
    (before after : list AllocationListStub) (als : AllocationListStub)
    (alloc : Allocation) (tg : TaskGroup) (task : NomadTask)
    (instances : list Instance) :
  AllocationsList client (Scheduler.queryNamespace namespace)
  = inr (before ++ als :: after) ->
  Scheduler.allocsLoop client (Scheduler.queryNamespace namespace) before []
  = Ok instances ->
  AllocationsInfo client (als_ID als) (Scheduler.queryNamespace namespace)
  = inr alloc ->
  GetTaskGroup alloc = Some tg ->
  task ∈ tg_Tasks tg ->
  task_Driver task = "docker" ->
  (forall imageStr, task_Config task !! "image" <> Some (StringValue imageStr)) ->
  Scheduler.getInstances client namespace = Panic.
Proof.
  intros Hl Hbefore Hi Hg Hin Hd Hconf. unfold Scheduler.getInstances.
  rewrite Hl. clear Hl. revert Hbefore. generalize (@nil Instance).
  induction before as [|b before IH]; intros acc; simpl.
  - intros _. rewrite Hi, Hg.
    rewrite (tasksLoop_no_image _ _ _ task); auto.
  - destruct (AllocationsInfo client (als_ID b) _) as [e|alloc']; [discriminate|].
    destruct (GetTaskGroup alloc') as [tg'|]; [|discriminate].
    destruct (Scheduler.tasksLoop b (tg_Name tg') (tg_Tasks tg') acc);
      try discriminate.
    apply IH.
Qed.
End SchedulerFacts.

(** ** Further examples *)

(** X4, on the exclude patterns of the first image, reordered and
    repeated. *)
Lemma filterTags_same_patterns_app :
  (forall r : @TOMLRegexp literalRegexp, In r [] <-> In r [])
  /\ (forall r, In r [pat "latest"; pat "rc"] <-> In r [pat "rc"; pat "latest"; pat "rc"])
  /\ @filterTags literalRegexp ["1.0.0"; "latest"; "1.1.0-rc1"] []
       [pat "latest"; pat "rc"]
     = @filterTags literalRegexp ["1.0.0"; "latest"; "1.1.0-rc1"] []
         [pat "rc"; pat "latest"; pat "rc"].
Proof.
  assert (forall r : @TOMLRegexp literalRegexp, In r [] <-> In r []) as Hi
    by (intros r; reflexivity).
  assert (forall r, In r [pat "latest"; pat "rc"]
                    <-> In r [pat "rc"; pat "latest"; pat "rc"]) as He
    by (intros r; simpl; tauto).
  split; [exact Hi|]. split; [exact He|].
  exact (@filterTags_same_patterns literalRegexp ["1.0.0"; "latest"; "1.1.0-rc1"]
           [] [] [pat "latest"; pat "rc"] [pat "rc"; pat "latest"; pat "rc"] Hi He).
Defined.

(** X6, on two releases followed by a pre-release. *)
Lemma getNewestVersion_concat_releases :
  [v "1.0.0"; v "1.2.0"] <> [] /\ [v "1.1.0-rc1"] <> []
  /\ exists m1 m2,
       @getNewestVersion SemVer.pkg [v "1.0.0"; v "1.2.0"] = Some m1
       /\ @getNewestVersion SemVer.pkg [v "1.1.0-rc1"] = Some m2
       /\ @getNewestVersion SemVer.pkg ([v "1.0.0"; v "1.2.0"] ++ [v "1.1.0-rc1"])
          = Some (@newer SemVer.pkg m1 m2).
Proof.
  assert ([v "1.0.0"; v "1.2.0"] <> []) as H1 by discriminate.
  assert ([v "1.1.0-rc1"] <> []) as H2 by discriminate.
  split; [exact H1|]. split; [exact H2|].
  exact (@getNewestVersion_concat SemVer.pkg SemVer_order
           [v "1.0.0"; v "1.2.0"] [v "1.1.0-rc1"] H1 H2).
Defined.

(** X7, on two entries for one image: the lenient one comes last and
    its unfiltered tags are what the mapping holds. *)
Lemma last_writer_wins_lenient :
  @getImageTagMapping literalRegexp inOrder steady [Cases.strict; Cases.lenient]
  = (Some Cases.lenient_tags, None)
  /\ exists raw,
       @listTags literalRegexp steady (Name Cases.lenient) = inr raw
       /\ Cases.lenient_tags !! Name Cases.lenient
          = Some (@filterTags literalRegexp raw (Include Cases.lenient)
                    (Exclude Cases.lenient)).
Proof.
  assert (@getImageTagMapping literalRegexp inOrder steady
            [Cases.strict; Cases.lenient] = (Some Cases.lenient_tags, None)) as Hres
    by (vm_compute; reflexivity).
  split; [exact Hres|].
  apply (@last_writer_wins literalRegexp inOrder steady
           [Cases.strict; Cases.lenient] [Cases.strict] [] Cases.lenient
           Cases.lenient_tags).
  - reflexivity.
  - intros w' Hw'. apply elem_of_nil in Hw'. contradiction.
  - exact Hres.
Defined.

(** X8, at the registry that refuses the second image, whose goroutine
    finishes first. *)
Lemma first_failure_is_reported_denied :
  @getImageTagMapping literalRegexp lastFirst denied watched
  = (None, Some (ErrMsg "UNAUTHORIZED"))
  /\ @getImageVersionMapping literalRegexp SemVer.pkg lastFirst denied watched
     = (None, Some (ErrMsg "UNAUTHORIZED")).
Proof.
  apply (@first_failure_is_reported literalRegexp SemVer.pkg lastFirst denied
           watched []
           [ {| Name := "docker.io/library/app"; Include := [];
                Exclude := [pat "latest"; pat "rc"] |} ]
           {| Name := "ghcr.io/acme/db"; Include := [pat "2"]; Exclude := [] |}
           (ErrMsg "UNAUTHORIZED")).
  - reflexivity.
  - intros w' Hw'. apply elem_of_nil in Hw'. contradiction.
  - reflexivity.
Defined.

(** X9, on the steady fleet. *)
Lemma resolve_values_steady :
  @getImageVersionMapping literalRegexp SemVer.pkg inOrder steady watched
  = (Some mapping, None)
  /\ exists tagMap,
       @getImageTagMapping literalRegexp inOrder steady watched = (Some tagMap, None)
       /\ forall imageName,
            match tagMap !! imageName with
            | None => mapping !! imageName = None
            | Some tags =>
                exists vers,
                  mapping !! imageName = Some vers
                  /\ Forall2 (fun tag ver => @NewVersion SemVer.pkg tag = inr ver)
                             tags vers
            end.
Proof.
  assert (@getImageVersionMapping literalRegexp SemVer.pkg inOrder steady watched
          = (Some mapping, None)) as Hm by (vm_compute; reflexivity).
  split; [exact Hm|].
  exact (@resolve_values literalRegexp SemVer.pkg inOrder inOrder_laws steady
           watched mapping Hm).
Defined.

(** X10, at the registry with a tag that is kept and is no version. *)
Lemma resolve_error_origin_stable :
  @getImageVersionMapping literalRegexp SemVer.pkg inOrder Cases.stable watched
  = (None, Some (Wrapf "couldn't parse image tag version for docker.io/library/app"
                   (ErrMsg "Malformed version: stable")))
  /\ (@None (gmap string (list SemVer.t)) = None
      /\ (@fetch_fails literalRegexp Cases.stable watched
            (Wrapf "couldn't parse image tag version for docker.io/library/app"
               (ErrMsg "Malformed version: stable"))
          \/ exists tagMap imageName before tag after e,
               @getImageTagMapping literalRegexp inOrder Cases.stable watched
               = (Some tagMap, None)
               /\ tagMap !! imageName = Some (before ++ tag :: after)
               /\ Forall (fun t => exists ver, @NewVersion SemVer.pkg t = inr ver) before
               /\ @NewVersion SemVer.pkg tag = inl e
               /\ Wrapf "couldn't parse image tag version for docker.io/library/app"
                    (ErrMsg "Malformed version: stable")
                  = Wrapf ("couldn't parse image tag version for " ++ imageName) e)).
Proof.
  assert (@getImageVersionMapping literalRegexp SemVer.pkg inOrder Cases.stable watched
          = (None, Some (Wrapf "couldn't parse image tag version for docker.io/library/app"
                           (ErrMsg "Malformed version: stable")))) as Hres
    by (vm_compute; reflexivity).
  split; [exact Hres|].
  exact (@resolve_error_origin literalRegexp SemVer.pkg inOrder inOrder_laws
           Cases.stable watched None _ Hres).
Defined.

(** X11, for goroutines in launch order. *)
Lemma resolve_nothing_watched_steady :
  @getImageVersionMapping literalRegexp SemVer.pkg inOrder steady [] = (Some ∅, None).
Proof.
  exact (@resolve_nothing_watched literalRegexp SemVer.pkg inOrder inOrder_laws steady).
Defined.

(** X13, on the steady fleet: two watched instances, two rows. *)
Lemma matchInstances_success_rows_steady :
  @matchInstances SemVer.pkg mapping [web; api; cache] [] = ([web_row; api_row], Ok tt)
  /\ exists rows,
       [web_row; api_row] = [] ++ rows
       /\ Forall2 (@rowFor SemVer.pkg mapping)
                  (List.filter (@isWatched SemVer.pkg mapping) [web; api; cache]) rows.
Proof.
  assert (@matchInstances SemVer.pkg mapping [web; api; cache] []
          = ([web_row; api_row], Ok tt)) as Hrun by (vm_compute; reflexivity).
  split; [exact Hrun|].
  exact (@matchInstances_success_rows SemVer.pkg mapping [web; api; cache] []
           [web_row; api_row] Hrun).
Defined.

(** X19, with the merge sort. *)
Lemma getAllInstances_no_namespaces_steady :
  @getAllInstances literalRegexp mergeSort steady tt [] = (Some [], None).
Proof.
  exact (@getAllInstances_no_namespaces literalRegexp mergeSort mergeSort_contract
           steady tt).
Defined.

(** X22, on the first row of the steady fleet. *)
Lemma rendered_rows_sound_steady :
  stdout (run_in steady) = Some [web_row; api_row]
  /\ web_row ∈ [web_row; api_row]
  /\ exists decoded image n nomadClient namespace enumerated instance raw tag
            latest current,
       @DecodeFile literalRegexp steady "./config.toml" = inr decoded
       /\ image ∈ Images decoded
       /\ @ParseNormalizedNamed DockerNames.pkg (Name image) = inr n
       /\ @Named_Name DockerNames.pkg n = ref_Name (Image instance)
       /\ @listTags literalRegexp steady (ref_Name (Image instance)) = inr raw
       /\ In tag raw
       /\ @passes literalRegexp (Include image) (Exclude image) tag = true
       /\ @NewVersion SemVer.pkg tag = inr latest
       /\ @NewClient literalRegexp steady (Server decoded) = inr nomadClient
       /\ namespace ∈ Namespaces decoded
       /\ @getInstances literalRegexp steady nomadClient namespace = inr enumerated
       /\ instance ∈ enumerated
       /\ @NewVersion SemVer.pkg (ref_Tag (Image instance)) = inr current
       /\ web_row = @reportRow SemVer.pkg instance latest current
                      (@GreaterThan SemVer.pkg latest current).
Proof.
  assert (stdout (run_in steady) = Some [web_row; api_row]) as Hout
    by (vm_compute; reflexivity).
  assert (web_row ∈ [web_row; api_row]) as Hrow by left.
  split; [exact Hout|]. split; [exact Hrow|].
  exact (@rendered_rows_sound literalRegexp SemVer.pkg mergeSort mergeSort_contract
           DockerNames.pkg inOrder inOrder_laws steady
           [web_row; api_row] web_row Hout Hrow).
Defined.

(** X23, on the default namespace: of the four tasks of the group only
    the docker task with a plain image is reported. *)
Lemma getInstances_reports_default :
  @Scheduler.getInstances Cases.nomad Cases.dockerRefs tt "default" = Ok [web]
  /\ Scheduler.queryNamespace "" = "*"
  /\ ("default" <> "" -> Scheduler.queryNamespace "default" = "default")
  /\ exists alss groups,
       @AllocationsList Cases.nomad tt (Scheduler.queryNamespace "default") = inr alss
       /\ Forall2 (fun als tg =>
                     exists alloc,
                       @AllocationsInfo Cases.nomad tt (als_ID als)
                         (Scheduler.queryNamespace "default") = inr alloc
                       /\ @GetTaskGroup Cases.nomad alloc = Some tg) alss groups
       /\ [web] =
          concat (zip_with
                    (fun als tg =>
                       omap (@Scheduler.reported Cases.dockerRefs als
                               (default "" (tg_Name tg)))
                            (tg_Tasks tg))
                    alss groups).
Proof.
  assert (@Scheduler.getInstances Cases.nomad Cases.dockerRefs tt "default" = Ok [web])
    as Hget by (vm_compute; reflexivity).
  split; [exact Hget|].
  exact (@getInstances_reports Cases.nomad Cases.dockerRefs tt "default" [web] Hget).
Defined.

(** X25, on the default namespace. *)
Lemma getInstances_safe_default :
  @Scheduler.getInstances Cases.nomad Cases.dockerRefs tt "default" <> Panic.
Proof.
  apply (@getInstances_safe Cases.nomad Cases.dockerRefs tt "default").
  intros alss als alloc Hl Hin Hi.
  vm_compute in Hl. injection Hl as <-.
  apply list_elem_of_singleton in Hin as ->.
  vm_compute in Hi. injection Hi as <-.
  exists Cases.frontend. split; [reflexivity|].
  split; [exists "frontend"; reflexivity|].
  repeat constructor; intros Hd; try discriminate Hd.
  - exists "app:1.0.0". split; [vm_compute; reflexivity|].
    intros _ ref Href. vm_compute in Href. injection Href as <-.
    eexists. reflexivity.
  - exists "${var.image}". split; [vm_compute; reflexivity|].
    intros Hp. vm_compute in Hp. discriminate Hp.
  - exists "not an image". split; [vm_compute; reflexivity|].
    intros _ ref Href. vm_compute in Href. discriminate Href.
Defined.

(** X26, on a group whose second docker task has no image. *)
Lemma getInstances_no_image_panics_headless :
  @Scheduler.getInstances Cases.nomad_headless Cases.dockerRefs tt "" = Panic.
Proof.
  apply (@getInstances_no_image_panics Cases.nomad_headless Cases.dockerRefs tt ""
           [Cases.web_alloc] [] Cases.cache_alloc Cases.headless Cases.headless
           {| task_Name := "pause"; task_Driver := "docker"; task_Config := ∅ |}
           [web]).
  - reflexivity.
  - vm_compute. reflexivity.
  - reflexivity.
  - reflexivity.
  - right. left.
  - reflexivity.
  - intros imageStr Hconf. vm_compute in Hconf. discriminate Hconf.
Defined.

(** ** Resolution and the order of the goroutines *)

Section Schedules.
Context {regexp : RegexpPkg} {version : VersionPkg} {collab : Collaborators}.
Context (r1 r2 : GoRuntime) (fair1 : @GoRuntimeLaws r1) (fair2 : @GoRuntimeLaws r2).

Lemma tag_mapping_of_distinct_names (r : GoRuntime) (fair : @GoRuntimeLaws r)
    images tagMap :
  NoDup (Name <$> images) ->
  @getImageTagMapping regexp r collab images = (Some tagMap, None) ->
  forall w, w ∈ images ->
            exists raw, listTags (Name w) = inr raw
                        /\ tagMap !! Name w
                           = Some (filterTags raw (Include w) (Exclude w)).
Proof.
  intros Hnd Hres w Hw.
  destruct (@getImageTagMapping_entries regexp r fair collab images tagMap Hres)
    as [Hent Hkeys].
  destruct (Hkeys w Hw) as [tags Htags].
  destruct (Hent _ _ Htags) as (w' & raw & Hw' & Hname & Hraw & ->).
  assert (w' = w) as -> by (eapply same_name_same_image; eauto).
  exists raw. auto.
Qed.

Lemma tag_mapping_schedule_independent images tagMap1 tagMap2 :
  NoDup (Name <$> images) ->
  @getImageTagMapping regexp r1 collab images = (Some tagMap1, None) ->
  @getImageTagMapping regexp r2 collab images = (Some tagMap2, None) ->
  tagMap1 = tagMap2.
Proof.
  intros Hnd H1 H2. apply map_eq. intros k.
  destruct (@getImageTagMapping_entries regexp r1 fair1 collab images tagMap1 H1)
    as [Hent1 _].
  destruct (@getImageTagMapping_entries regexp r2 fair2 collab images tagMap2 H2)
    as [Hent2 _].
  destruct (tagMap1 !! k) as [tags1|] eqn:E1.
  - destruct (Hent1 _ _ E1) as (w & raw & Hw & <- & Hraw & ->).
    destruct (tag_mapping_of_distinct_names r2 fair2 _ _ Hnd H2 w Hw)
      as (raw' & Hraw' & ->). congruence.
  - destruct (tagMap2 !! k) as [tags2|] eqn:E2; [|reflexivity].
    destruct (Hent2 _ _ E2) as (w & raw & Hw & <- & Hraw & ->).
    destruct (tag_mapping_of_distinct_names r1 fair1 _ _ Hnd H1 w Hw)
      as (raw' & Hraw' & E). congruence.
Qed.

Lemma parsed_versions_unique tags : forall vers1 vers2,
  Forall2 (fun tag ver => NewVersion tag = inr ver) tags vers1 ->
  Forall2 (fun tag ver => NewVersion tag = inr ver) tags vers2 ->
  vers1 = vers2.
Proof.
  induction tags as [|tag tags IH]; intros vers1 vers2 H1 H2.
  - apply Forall2_nil_inv_l in H1, H2. congruence.
  - apply Forall2_cons_inv_l in H1 as (v1 & l1 & Hv1 & Hl1 & ->).
    apply Forall2_cons_inv_l in H2 as (v2 & l2 & Hv2 & Hl2 & ->).
    f_equal; [congruence|]. apply IH; assumption.
Qed.

(** X27.  With distinct image names the result of a successful
    resolution does not depend on the order in which the goroutines
    finish or in which the map is ranged over: if it succeeds with a
    mapping in one run it succeeds with the same mapping in any other. *)
Theorem resolve_schedule_independent (images : list WatchedImage)
    (m : gmap string (list Version)) :
  NoDup (Name <$> images) ->
  @getImageVersionMapping regexp version r1 collab images = (Some m, None) ->
  @getImageVersionMapping regexp version r2 collab images = (Some m, None).
Proof.
  intros Hnd Hm1.
  destruct (@version_mapping_values regexp version r1 fair1 collab images m Hm1)
    as (tagMap1 & Htag1 & Hvals1).
  destruct (@resolve_complete regexp version r1 fair1 collab images m None Hm1)
    as (_ & Hnofetch & _ & _).
  destruct (@getImageTagMapping_cases regexp r2 fair2 collab images)
    as [(err & _ & Hf)|(tagMap2 & Htag2 & _)]; [destruct (Hnofetch err Hf)|].
  assert (tagMap2 = tagMap1) as ->
    by (symmetry; eapply tag_mapping_schedule_independent; eauto).
  destruct (@getImageVersionMapping_shape regexp version r2 collab images)
    as [[m2 Hm2]|[err Hm2]].
  - rewrite Hm2. f_equal. f_equal. apply map_eq. intros k.
    destruct (@version_mapping_values regexp version r2 fair2 collab images m2 Hm2)
      as (tagMap2 & Htag2' & Hvals2).
    rewrite Htag2 in Htag2'. injection Htag2' as <-.
    specialize (Hvals1 k). specialize (Hvals2 k).
    destruct (tagMap1 !! k) as [tags|]; [|congruence].
    destruct Hvals1 as (vers1 & -> & Hall1). destruct Hvals2 as (vers2 & -> & Hall2).
    f_equal. eapply parsed_versions_unique; eauto.
  - exfalso. unfold getImageVersionMapping in Hm2. rewrite Htag2 in Hm2.
    simpl in Hm2. apply parseEntries_error in Hm2 as (n & t & e & Hin & Ht & _).
    apply (@elem_of_mapRange r2 fair2) in Hin.
    specialize (Hvals1 n). rewrite Hin in Hvals1.
    destruct Hvals1 as (vers & _ & Hall).
    apply parseTags_inl in Ht as (tag & Htag & Hnew).
    apply list_elem_of_lookup in Htag as [i Hi].
    destruct (Forall2_lookup_l _ _ _ _ _ Hall Hi) as (ver & _ & Hver). congruence.
Qed.
End Schedules.

(** X27, on the steady fleet, from launch order to its opposite. *)
Lemma resolve_schedule_independent_steady :
  NoDup (Name <$> watched)
  /\ @getImageVersionMapping literalRegexp SemVer.pkg inOrder steady watched
     = (Some mapping, None)
  /\ @getImageVersionMapping literalRegexp SemVer.pkg lastFirst steady watched
     = (Some mapping, None).
Proof.
  assert (NoDup (Name <$> watched)) as Hnd.
  { simpl. repeat constructor; intros Hin.
    - apply list_elem_of_singleton in Hin. discriminate Hin.
    - apply elem_of_nil in Hin. exact Hin. }
  assert (@getImageVersionMapping literalRegexp SemVer.pkg inOrder steady watched
          = (Some mapping, None)) as Hm by (vm_compute; reflexivity).
  split; [exact Hnd|]. split; [exact Hm|].
  exact (@resolve_schedule_independent literalRegexp SemVer.pkg steady
           inOrder lastFirst inOrder_laws lastFirst_laws watched mapping Hnd Hm).
Defined.
